(** * Lagged coherence (neurodsp/rhythm/lc.py): embedding and properties

    The development follows [src/neurodsp/rhythm/lc.py]:
    - [_nonoverlapping_chunks] (lines 101-107),
    - [_lagged_coherence_1freq] (lines 72-98),
    - [lagged_coherence]        (lines 13-69).

    Number model.  Python and NumPy compute on binary64 values.  Here a
    finite binary64 value is idealised as a real number (type [R]) and
    arithmetic on finite values is exact; rounding, overflow and underflow
    are not part of the model.  What IEEE arithmetic does outside the
    finite values is kept: a division by zero yields an infinity or a
    not-a-number (type [npfloat]), and these propagate through [np.abs],
    [np.isnan] and [np.mean].  Python exceptions are values of type
    [exn], carried by [result]; the text written by [print] is threaded
    as a list of messages.

    Module [B64] evaluates the last stage of the estimator (lines 87-98)
    in binary64 itself, with Rocq's primitive floats, for windows of one
    sample, where the taper and the transform are exact: it shows what
    rounding does to the returned value. *)

From Stdlib Require Import PrimFloat.
From Stdlib Require Import String.
From Stdlib Require Import Reals Lra Lia ZArith List Bool Psatz.
Import ListNotations.

Local Open Scope R_scope.

(** ** Exceptions *)

Inductive exn : Type :=
| ZeroDivisionError
| OverflowError
| ValueError.

Inductive result (A : Type) : Type :=
| Ok (a : A)
| Raise (e : exn).

Arguments Ok {A} a.
Arguments Raise {A} e.

Definition bind {A B : Type} (m : result A) (k : A -> result B) : result B :=
  match m with
  | Ok a => k a
  | Raise e => Raise e
  end.

Notation "x <- m ;; k" := (bind m (fun x => k))
  (at level 61, m at next level, right associativity).

(** ** Values of NumPy's float64 *)

Inductive npfloat : Type :=
| Fin (r : R)
| PInf
| NInf
| NaN.

(** [x / y] on finite operands: IEEE gives [nan] for [0/0] and a signed
    infinity for a non-zero numerator over zero (NumPy warns, and does not
    raise). *)
Definition fdiv (x y : R) : npfloat :=
  if Req_dec_T y 0 then
    if Req_dec_T x 0 then NaN
    else if Rlt_dec 0 x then PInf else NInf
  else Fin (x / y).

(** [np.isnan]. *)
Definition isnan (x : npfloat) : bool :=
  match x with
  | NaN => true
  | _ => false
  end.

(** Addition of float64 values. *)
Definition np_add (x y : npfloat) : npfloat :=
  match x, y with
  | NaN, _ | _, NaN => NaN
  | PInf, NInf | NInf, PInf => NaN
  | PInf, _ | _, PInf => PInf
  | NInf, _ | _, NInf => NInf
  | Fin a, Fin b => Fin (a + b)
  end.

(** [np.sum] of a float64 array. *)
Definition np_sum (l : list npfloat) : npfloat :=
  fold_left np_add l (Fin 0).

(** A float64 value divided by a count [n >= 0]. *)
Definition np_div_count (s : npfloat) (n : nat) : npfloat :=
  match s with
  | Fin r => fdiv r (INR n)
  | other => other
  end.

(** [np.mean] of a one-dimensional float64 array: the sum of the elements
    divided by their number; on an empty array this is [0.0 / 0], that is
    [nan] (with a RuntimeWarning, no exception). *)
Definition np_mean (l : list npfloat) : npfloat :=
  np_div_count (np_sum l) (length l).

(** ** Complex numbers (complex128) *)

Definition C : Type := (R * R)%type.

Definition C0 : C := (0, 0).
Definition Cadd (a b : C) : C := (fst a + fst b, snd a + snd b).
Definition Cmul (a b : C) : C :=
  (fst a * fst b - snd a * snd b, fst a * snd b + snd a * fst b).
Definition Cscale (x : R) (a : C) : C := (x * fst a, x * snd a).

(** [np.conj]. *)
Definition Cconj (a : C) : C := (fst a, - snd a).

(** [np.abs] of a finite complex number. *)
Definition Cabs (a : C) : R := sqrt (fst a * fst a + snd a * snd a).

(** [exp(i t)]. *)
Definition cis (t : R) : C := (cos t, sin t).

Definition Rsum (l : list R) : R := fold_right Rplus 0 l.
Definition Csum (l : list C) : C := fold_right Cadd C0 l.

(** A complex number divided by a float64: the divisor is promoted to
    [d + 0j], and NumPy's quotient is then [(re / d, im / d)], also when
    [d] is zero. *)
Definition cdiv (num : C) (d : R) : npfloat * npfloat :=
  (fdiv (fst num) d, fdiv (snd num) d).

(** [np.abs] of a complex128 whose parts may be infinite or nan: C's
    [hypot], which is infinite as soon as one part is, and nan otherwise
    when one part is. *)
Definition np_abs (z : npfloat * npfloat) : npfloat :=
  match z with
  | (Fin a, Fin b) => Fin (Cabs (a, b))
  | (PInf, _) | (NInf, _) | (_, PInf) | (_, NInf) => PInf
  | _ => NaN
  end.

(** ** Windowing and chunking *)

(** [np.reshape(a, (rows, cols))] of a flat array: row [i] holds the
    elements [i*cols .. i*cols + cols - 1]. *)
Fixpoint rows_of {A : Type} (l : list A) (rows cols : nat) : list (list A) :=
  match rows with
  | O => []
  | S r => firstn cols l :: rows_of (skipn cols l) r cols
  end.

(** [np.reshape] refuses a shape whose size differs from the array's. *)
Definition reshape {A : Type} (l : list A) (rows cols : nat)
  : result (list (list A)) :=
  if Nat.eqb (length l) (rows * cols) then Ok (rows_of l rows cols)
  else Raise ValueError.

(** lc.py, lines 101-107.
<<
    n_chunks = int(np.floor(len(sig) / float(n_samples)))
    chunks = np.reshape(sig[:int(n_chunks * n_samples)], (n_chunks, int(n_samples)))
>>
    [len(sig) / float(n_samples)] raises [ZeroDivisionError] for
    [n_samples = 0]; the floor of the quotient is [Z.div] (which rounds
    towards minus infinity).  A negative [n_samples] gives a shape with
    a negative dimension, which [np.reshape] refuses. *)
Definition _nonoverlapping_chunks {A : Type} (sig : list A) (n_samples : Z)
  : result (list (list A)) :=
  if (n_samples =? 0)%Z then Raise ZeroDivisionError
  else
    let n_chunks := (Z.of_nat (length sig) / n_samples)%Z in
    if (n_samples <? 0)%Z then Raise ValueError
    else reshape (firstn (Z.to_nat (n_chunks * n_samples)) sig)
                 (Z.to_nat n_chunks) (Z.to_nat n_samples).

(** ** Numeric primitives (NumPy and SciPy) *)

(** The integers [a, a+1, ..., b-1]. *)
Definition zrange (a b : Z) : list Z :=
  map (fun i => (a + Z.of_nat i)%Z) (seq 0 (Z.to_nat (b - a))).

(** [scipy.signal.windows.hann(M)], the symmetric window:
    empty for [M < 1], [[1.0]] for [M = 1], and otherwise
    [w(n) = 0.5 - 0.5 cos(2 pi n / (M - 1))] for [n = 0 .. M-1]. *)
Definition hann (M : Z) : list R :=
  if (M <? 1)%Z then []
  else if (M =? 1)%Z then [1]
  else map (fun n => 0.5 - 0.5 * cos (2 * PI * IZR n / IZR (M - 1)))
           (zrange 0 M).

(** [np.fft.fftfreq(n, d)]: the bins [0, 1, ..., (n-1)//2] followed by
    [-(n//2), ..., -1], each multiplied by [1 / (n d)]. *)
Definition fftfreq (n : Z) (d : R) : list R :=
  let val := 1 / (IZR n * d) in
  let N := ((n - 1) / 2 + 1)%Z in
  map (fun k => IZR k * val) (zrange 0 N ++ zrange (- (n / 2)) 0).

(** [np.fft.fft] of a real array of length [N]:
    [X(k) = sum over m of x(m) exp(-2 pi i k m / N)]. *)
Definition fft (x : list R) : list C :=
  let N := length x in
  map (fun k =>
         Csum (map (fun m =>
                      Cscale (nth m x 0)
                             (cis (- (2 * PI * INR k * INR m / INR N))))
                   (seq 0 N)))
      (seq 0 N).

(** Scan of [np.argmin]: the running best index and value; a later
    element replaces the best one only when it is strictly smaller. *)
Fixpoint argmin_scan (l : list R) (i best : nat) (bv : R) : nat :=
  match l with
  | [] => best
  | x :: rest =>
      if Rlt_dec x bv then argmin_scan rest (S i) i x
      else argmin_scan rest (S i) best bv
  end.

(** [np.argmin] of a one-dimensional array; raises on an empty one. *)
Definition argmin (l : list R) : result nat :=
  match l with
  | [] => Raise ValueError
  | x :: rest => Ok (argmin_scan rest 1 0 x)
  end.

(** Element-wise product of two arrays of equal length. *)
Definition times (a b : list R) : list R :=
  map (fun p => fst p * snd p) (combine a b).

(** [np.arange(start, stop, step)]: [ceil((stop - start) / step)] values
    [start + i step] (none when that number is not positive); a zero
    step raises. *)
Definition arange (start stop step : R) : result (list R) :=
  if Req_dec_T step 0 then Raise ZeroDivisionError
  else
    let len := Z.to_nat (Zceil ((stop - start) / step)) in
    Ok (map (fun i => start + INR i * step) (seq 0 len)).

(** ** Single-frequency estimator *)

(** lc.py, line 76: [int(np.ceil(n_cycles * fs / freq))].  [freq] is a
    NumPy scalar, so a zero [freq] gives [inf] or [nan], on which [int]
    raises [OverflowError] or [ValueError]. *)
Definition window_length (n_cycles fs freq : R) : result Z :=
  if Req_dec_T freq 0 then
    if Req_dec_T (n_cycles * fs) 0 then Raise ValueError
    else Raise OverflowError
  else Ok (Zceil (n_cycles * fs / freq)).

(** lc.py, lines 84-85: the index of the bin closest to [freq].
    [1 / float(fs)] raises [ZeroDivisionError] for [fs = 0]. *)
Definition fft_bin (n_samps : Z) (fs freq : R) : result nat :=
  if Req_dec_T fs 0 then Raise ZeroDivisionError
  else
    let fft_freqs := fftfreq n_samps (1 / fs) in
    argmin (map (fun f => Rabs (f - freq)) fft_freqs).

(** lc.py, lines 87-90: one coefficient per chunk, in chunk order. *)
Definition chunk_coefs (chunks : list (list R)) (hann_window : list R)
  (fft_freqs_idx : nat) : list C :=
  map (fun chunk => nth fft_freqs_idx (fft (times chunk hann_window)) C0)
      chunks.

(** lc.py, lines 93-95. *)
Definition lcs_num (fft_coefs : list C) : C :=
  fold_left
    (fun acc ind =>
       Cadd acc (Cmul (nth ind fft_coefs C0)
                      (Cconj (nth (ind + 1) fft_coefs C0))))
    (seq 0 (length fft_coefs - 1)) C0.

(** lc.py, line 96. *)
Definition lcs_denom (fft_coefs : list C) : R :=
  sqrt (Rsum (map (fun c => Cabs c ^ 2) (removelast fft_coefs))
        * Rsum (map (fun c => Cabs c ^ 2) (tl fft_coefs))).

(** The coefficients computed for one frequency (lines 76-90). *)
Definition fft_coefs_of (sig : list R) (freq fs n_cycles : R)
  : result (list C) :=
  n_samps <- window_length n_cycles fs freq ;;
  chunks <- _nonoverlapping_chunks sig n_samps ;;
  let hann_window := hann n_samps in
  fft_freqs_idx <- fft_bin n_samps fs freq ;;
  Ok (chunk_coefs chunks hann_window fft_freqs_idx).

(** lc.py, lines 72-98. *)
Definition _lagged_coherence_1freq (sig : list R) (freq fs n_cycles : R)
  : result npfloat :=
  fft_coefs <- fft_coefs_of sig freq fs n_cycles ;;
  Ok (np_abs (cdiv (lcs_num fft_coefs) (lcs_denom fft_coefs))).

(** ** Frequency-range orchestrator *)

(** [a[ind] = v] on an array (no effect out of range; the source only
    writes in range). *)
Fixpoint set_item {A : Type} (a : list A) (ind : nat) (v : A) : list A :=
  match a, ind with
  | [], _ => []
  | _ :: rest, O => v :: rest
  | x :: rest, S i => x :: set_item rest i v
  end.

(** [enumerate]. *)
Definition enumerate {A : Type} (l : list A) : list (nat * A) :=
  combine (seq 0 (length l)) l.

(** lc.py, lines 54-55: the loop filling [lc]; the first exception
    leaves it. *)
Fixpoint fill_lc (sig : list R) (fs n_cycles : R) (items : list (nat * R))
  (lc : list npfloat) : result (list npfloat) :=
  match items with
  | [] => Ok lc
  | (ind, freq) :: rest =>
      v <- _lagged_coherence_1freq sig freq fs n_cycles ;;
      fill_lc sig fs n_cycles rest (set_item lc ind v)
  end.

(** The text of the notice (lines 59-63). *)
Definition lc_warning : string :=
  "NEURODSP - LAGGED COHERENCE WARNING:
Lagged coherence could not be estimated for at least some requested frequencies.
This happens, especially with low frequencies, when there are not enough samples per segment and/or not enough segments available to estimate the measure.
Try using a greater number of cycles, a longer signal length, and/or adjust the frequency range."%string.

(** What the function returns: [(lc, freqs)] or [np.mean(lc)]. *)
Inductive retval : Type :=
| Spectrum (lc : list npfloat) (freqs : list R)
| MeanValue (m : npfloat).

(** Standard output: the messages printed so far, oldest first. *)
Definition stdout : Type := list string.

(** [sum(np.isnan(lc))]. *)
Definition count_nan (lc : list npfloat) : nat :=
  length (filter isnan lc).

(** lc.py, lines 52-69, on a one-dimensional [sig] (on which the
    [multidim] decorator calls the function as it is). *)
Definition lagged_coherence (sig : list R) (f_range : R * R)
  (fs n_cycles f_step : R) (return_spectrum verbose : bool) (out : stdout)
  : result (retval * stdout) :=
  freqs <- arange (fst f_range) (snd f_range + f_step) f_step ;;
  lc <- fill_lc sig fs n_cycles (enumerate freqs)
                (repeat (Fin 0) (length freqs)) ;;
  let out' :=
    if (0 <? count_nan lc)%nat && verbose then out ++ [lc_warning]
    else out in
  if return_spectrum then Ok (Spectrum lc freqs, out')
  else Ok (MeanValue (np_mean lc), out').

(** ** The quantities of the specification

    The definitions of this part follow the words of the specification;
    the theorems below compare them with the functions above. *)

(** The signed bin number of position [j] in a grid of [n] bins. *)
Definition bin_number (n : Z) (j : nat) : Z :=
  if (Z.of_nat j <=? (n - 1) / 2)%Z then Z.of_nat j else (Z.of_nat j - n)%Z.

(** The tapered Fourier coefficient of one chunk at the selected bin. *)
Definition tapered_coef (n_samples : Z) (bin : nat) (chunk : list R) : C :=
  nth bin (fft (times chunk (hann n_samples))) C0.

(** "sum over consecutive chunk pairs (i, i+1) of
    coef[i] * conjugate(coef[i+1]), for i = 0 .. n_chunks-2". *)
Definition spec_numerator (coef : nat -> C) (n_chunks : nat) : C :=
  Csum (map (fun i => Cmul (coef i) (Cconj (coef (i + 1)%nat)))
            (seq 0 (n_chunks - 1))).

(** "sqrt( (sum of |coef[i]|^2 for i in 0..n_chunks-2)
          * (sum of |coef[i]|^2 for i in 1..n_chunks-1) )". *)
Definition spec_denominator (coef : nat -> C) (n_chunks : nat) : R :=
  sqrt (Rsum (map (fun i => Cabs (coef i) ^ 2) (seq 0 (n_chunks - 1)))
        * Rsum (map (fun i => Cabs (coef i) ^ 2) (seq 1 (n_chunks - 1)))).


(** "the arithmetic mean of the per-frequency values". *)
Definition arithmetic_mean (values : list npfloat) : npfloat :=
  np_div_count (fold_right np_add (Fin 0) values) (length values).

(** The per-frequency values and the frequencies of one invocation, the
    two sequences the specification speaks of: the estimates of the
    frequencies, in order.  Lemma [fill_lc_zeros] shows that the loop of
    the source (lines 53-55) computes exactly this. *)
Fixpoint estimate_each (sig : list R) (fs n_cycles : R) (freqs : list R)
  : result (list npfloat) :=
  match freqs with
  | [] => Ok []
  | freq :: rest =>
      v <- _lagged_coherence_1freq sig freq fs n_cycles ;;
      vs <- estimate_each sig fs n_cycles rest ;;
      Ok (v :: vs)
  end.

Definition per_frequency_values (sig : list R) (f_range : R * R)
  (fs n_cycles f_step : R) : result (list npfloat * list R) :=
  freqs <- arange (fst f_range) (snd f_range + f_step) f_step ;;
  lc <- estimate_each sig fs n_cycles freqs ;;
  Ok (lc, freqs).

(** A signal, or a chunk, all of whose samples are zero. *)
Definition all_zero (l : list R) : Prop := Forall (fun v => v = 0) l.

(** A value the estimator can return on positive parameters. *)
Definition nan_or_unit (x : npfloat) : Prop :=
  x = NaN \/ exists v, x = Fin v /\ 0 <= v <= 1.

(** The sweep of a range with integer bounds [a <= b] and integer step
    [s > 0]: [ceil((b - a) / s)] steps above [a], that is the frequencies
    [a, a + s, ..., a + sweep_steps a b s * s]. *)
Definition sweep_steps (a b s : Z) : Z := ((b - a + s - 1) / s)%Z.

Definition integer_sweep (a b s : Z) : list R :=
  map (fun i => IZR (a + Z.of_nat i * s))
      (seq 0 (Z.to_nat (sweep_steps a b s + 1))).

(** The messages an invocation adds to the standard output. *)
Definition notices (lc : list npfloat) (verbose : bool) : list string :=
  if existsb isnan lc && verbose then [lc_warning] else [].

(** ** The estimator in binary64, for windows of one sample

    With [freq = fs = n_cycles = 1] line 76 gives [n_samps = 1]:
    [hann(1)] is [[1.0]], [fftfreq(1, 1.0)] is [[0.]], the selected bin
    is 0 and the transform of a one-sample chunk [[x]] is [[x + 0j]].
    Every operation below is the binary64 operation NumPy performs on
    [np.float64] and [np.complex128] scalars. *)

Module B64.

Local Open Scope float_scope.

Definition complex128 : Type := (float * float)%type.

(** Product and sum of two complex128 scalars. *)
Definition c_mul (a b : complex128) : complex128 :=
  (fst a * fst b - snd a * snd b, fst a * snd b + snd a * fst b).

Definition c_add (a b : complex128) : complex128 :=
  (fst a + fst b, snd a + snd b).

(** [np.conj]. *)
Definition c_conj (a : complex128) : complex128 := (fst a, - snd a).

(** [np.abs] of a complex128 is C's [hypot], which returns [|x|] exactly
    when the other part is zero; this is the case throughout for windows
    of one sample.  The last branch is the plain formula. *)
Definition c_abs (a : complex128) : float :=
  if snd a =? 0 then PrimFloat.abs (fst a)
  else if fst a =? 0 then PrimFloat.abs (snd a)
  else PrimFloat.sqrt (fst a * fst a + snd a * snd a).


(** [np.sum] of a float64 array of fewer than eight elements: the
    elements are added from left to right. *)
Definition np_sum (l : list float) : float :=
  match l with
  | [] => 0
  | x :: rest => fold_left PrimFloat.add rest x
  end.

(** [np.abs(c) ** 2] for one coefficient. *)
Definition abs_squared (c : complex128) : float :=
  let m := c_abs c in m * m.

(** Lines 87-90 for one-sample windows: the chunk [[x]] times the taper
    [[1.0]], transformed. *)
Definition fft_coefs (sig : list float) : list complex128 :=
  map (fun x => (x * 1, 0)) sig.

(** Lines 93-95. *)
Definition lcs_num (coefs : list complex128) : complex128 :=
  fold_left
    (fun acc ind =>
       c_add acc (c_mul (nth ind coefs (0, 0))
                        (c_conj (nth (ind + 1) coefs (0, 0)))))
    (seq 0 (length coefs - 1)) (0, 0).

(** Line 96. *)
Definition lcs_denom (coefs : list complex128) : float :=
  PrimFloat.sqrt (np_sum (map abs_squared (removelast coefs))
                  * np_sum (map abs_squared (tl coefs))).


End B64.

(** * Properties *)

(** ** Windowing and chunking *)

Section ChunkFacts.
Context {A : Type}.

Lemma rows_of_length (l : list A) (rows cols : nat) :
  length (rows_of l rows cols) = rows.
Proof.
  revert l; induction rows as [|r IH]; intros l; simpl; [reflexivity|].
  now rewrite IH.
Qed.

Lemma rows_of_widths (rows cols : nat) : forall l : list A,
  length l = (rows * cols)%nat ->
  Forall (fun c => length c = cols) (rows_of l rows cols).
Proof.
  induction rows as [|r IH]; intros l Hl; simpl; constructor.
  - rewrite length_firstn. simpl in Hl. lia.
  - apply IH. rewrite length_skipn. simpl in Hl. lia.
Qed.

Lemma rows_of_concat (rows cols : nat) : forall l : list A,
  length l = (rows * cols)%nat ->
  concat (rows_of l rows cols) = l.
Proof.
  induction rows as [|r IH]; intros l Hl; simpl.
  - simpl in Hl. symmetry. now apply length_zero_iff_nil.
  - rewrite IH.
    + apply firstn_skipn.
    + rewrite length_skipn. simpl in Hl. lia.
Qed.

(** The number of rows computed by the source, as a natural number. *)
Lemma n_chunks_nat (L : nat) (n : Z) :
  (1 <= n)%Z ->
  Z.to_nat (Z.of_nat L / n) = (L / Z.to_nat n)%nat.
Proof.
  intros Hn.
  rewrite <- (Z2Nat.id n) at 1 by lia.
  rewrite <- Nat2Z.inj_div.
  apply Nat2Z.id.
Qed.

(** On a window length of at least one sample the function returns, and
    what it returns is the reshaped prefix. *)
Lemma chunks_ok (sig : list A) (n : Z) :
  (1 <= n)%Z ->
  _nonoverlapping_chunks sig n
  = Ok (rows_of (firstn (length sig / Z.to_nat n * Z.to_nat n) sig)
                (length sig / Z.to_nat n) (Z.to_nat n)).
Proof.
  intros Hn. unfold _nonoverlapping_chunks, reshape.
  destruct (Z.eqb_spec n 0) as [->|_]; [lia|].
  destruct (Z.ltb_spec n 0) as [?|_]; [lia|].
  assert (Hq : (0 <= Z.of_nat (length sig) / n)%Z)
    by (apply Z.div_pos; lia).
  rewrite Z2Nat.inj_mul by lia.
  rewrite n_chunks_nat by exact Hn.
  set (k := Z.to_nat n). set (q := (length sig / k)%nat).
  assert (Hle : (q * k <= length sig)%nat).
  { unfold q. rewrite Nat.mul_comm. apply Nat.Div0.mul_div_le. }
  rewrite length_firstn, Nat.min_l by exact Hle.
  now rewrite Nat.eqb_refl.
Qed.

(** C2.  For a signal of length [L] and a window of [n_samples >= 1]
    samples, [_nonoverlapping_chunks] returns (it does not raise) exactly
    [floor(L / n_samples)] chunks, each of [n_samples] samples, whose
    concatenation is the first [n_chunks * n_samples] samples of the
    signal: the remainder is dropped, nothing overlaps and nothing is
    padded.  When [L < n_samples] the chunk set is empty. *)
Theorem chunks_partition (sig : list A) (n_samples : Z) :
  (1 <= n_samples)%Z ->
  exists chunks,
    _nonoverlapping_chunks sig n_samples = Ok chunks
    /\ Z.of_nat (length chunks) = (Z.of_nat (length sig) / n_samples)%Z
    /\ Forall (fun c => Z.of_nat (length c) = n_samples) chunks
    /\ concat chunks = firstn (length chunks * Z.to_nat n_samples) sig
    /\ ((Z.of_nat (length sig) < n_samples)%Z -> chunks = []).
Proof.
  intros Hn. eexists. split; [apply chunks_ok; exact Hn|].
  set (k := Z.to_nat n_samples). set (q := (length sig / k)%nat).
  assert (Hk : Z.of_nat k = n_samples) by (unfold k; lia).
  assert (Hle : (q * k <= length sig)%nat).
  { unfold q. rewrite Nat.mul_comm. apply Nat.Div0.mul_div_le. }
  assert (Hlen : length (firstn (q * k) sig) = (q * k)%nat)
    by (rewrite length_firstn; lia).
  rewrite rows_of_length.
  repeat split.
  - unfold q. rewrite Nat2Z.inj_div. now rewrite Hk.
  - eapply Forall_impl; [|apply rows_of_widths; exact Hlen].
    intros c Hc. simpl in Hc. lia.
  - apply rows_of_concat; exact Hlen.
  - intros Hlt.
    assert (Hq : q = 0%nat) by (unfold q; apply Nat.div_small; lia).
    rewrite Hq. reflexivity.
Qed.

End ChunkFacts.

Lemma chunks_partition_witness :
  exists chunks,
    _nonoverlapping_chunks [1%nat; 2%nat; 3%nat; 4%nat; 5%nat] 2 = Ok chunks
    /\ Z.of_nat (length chunks) = (Z.of_nat 5 / 2)%Z
    /\ Forall (fun c => Z.of_nat (length c) = 2%Z) chunks
    /\ concat chunks = firstn (length chunks * Z.to_nat 2) [1%nat; 2%nat; 3%nat; 4%nat; 5%nat]
    /\ ((Z.of_nat 5 < 2)%Z -> chunks = []).
Proof.
  apply (chunks_partition [1%nat; 2%nat; 3%nat; 4%nat; 5%nat] 2). lia.
Defined.

Example chunks_five_by_two :
  _nonoverlapping_chunks [1%nat; 2%nat; 3%nat; 4%nat; 5%nat] 2
  = Ok [[1%nat; 2%nat]; [3%nat; 4%nat]].
Proof. reflexivity. Qed.

Example chunks_short_signal :
  _nonoverlapping_chunks [1%nat; 2%nat] 3 = Ok [].
Proof. reflexivity. Qed.

(** ** The frequency grid and the selected bin *)

Lemma nth_map_in {A B : Type} (f : A -> B) (l : list A) (j : nat)
  (d : B) (d' : A) :
  (j < length l)%nat -> nth j (map f l) d = f (nth j l d').
Proof.
  intros Hj. rewrite (nth_indep _ d (f d')) by now rewrite length_map.
  apply map_nth.
Qed.

Lemma zrange_length (a b : Z) : length (zrange a b) = Z.to_nat (b - a).
Proof. unfold zrange. now rewrite length_map, length_seq. Qed.

Lemma zrange_nth (a b : Z) (j : nat) (d : Z) :
  (j < Z.to_nat (b - a))%nat ->
  nth j (zrange a b) d = (a + Z.of_nat j)%Z.
Proof.
  intros Hj. unfold zrange.
  rewrite (nth_map_in _ _ _ _ 0%nat) by now rewrite length_seq.
  now rewrite seq_nth.
Qed.

Lemma fftfreq_length (n : Z) (d : R) :
  (1 <= n)%Z -> length (fftfreq n d) = Z.to_nat n.
Proof.
  intros Hn. unfold fftfreq.
  rewrite length_map, length_app, !zrange_length.
  assert (H2 := Z.div_mod n 2 ltac:(lia)).
  assert (H3 := Z.mod_pos_bound n 2 ltac:(lia)).
  assert (H4 := Z.div_mod (n - 1) 2 ltac:(lia)).
  assert (H5 := Z.mod_pos_bound (n - 1) 2 ltac:(lia)).
  lia.
Qed.

Lemma fftfreq_nth (n : Z) (d : R) (j : nat) :
  (1 <= n)%Z -> (j < Z.to_nat n)%nat ->
  nth j (fftfreq n d) 0 = IZR (bin_number n j) * (1 / (IZR n * d)).
Proof.
  intros Hn Hj. unfold fftfreq, bin_number.
  set (val := 1 / (IZR n * d)).
  assert (H2 := Z.div_mod n 2 ltac:(lia)).
  assert (H3 := Z.mod_pos_bound n 2 ltac:(lia)).
  assert (H4 := Z.div_mod (n - 1) 2 ltac:(lia)).
  assert (H5 := Z.mod_pos_bound (n - 1) 2 ltac:(lia)).
  rewrite (nth_map_in _ _ _ _ 0%Z)
    by (rewrite length_app, !zrange_length; lia).
  destruct (Z.leb_spec (Z.of_nat j) ((n - 1) / 2)) as [Hle|Hgt].
  - rewrite app_nth1 by (rewrite zrange_length; lia).
    rewrite zrange_nth by lia. f_equal.
  - rewrite app_nth2 by (rewrite zrange_length; lia).
    rewrite zrange_length.
    rewrite zrange_nth by lia. f_equal. f_equal. lia.
Qed.

(** Invariant of the scan: [best] is the first position, among those
    already seen, that holds the least value. *)
Lemma argmin_scan_first_min (f : nat -> R) (n : nat) :
  forall i best : nat,
    (best < i)%nat ->
    (forall j, (j < i)%nat -> f best <= f j) ->
    (forall j, (j < best)%nat -> f best < f j) ->
    let r := argmin_scan (map f (seq i n)) i best (f best) in
    (r < i + n)%nat
    /\ (forall j, (j < i + n)%nat -> f r <= f j)
    /\ (forall j, (j < r)%nat -> f r < f j).
Proof.
  induction n as [|n IH]; intros i best Hb Hmin Hfirst; simpl.
  - repeat split; auto.
    + lia.
    + intros j Hj. apply Hmin. lia.
  - destruct (Rlt_dec (f i) (f best)) as [Hlt|Hge].
    + destruct (IH (S i) i) as (H1 & H2 & H3).
      * lia.
      * intros j Hj. destruct (Nat.eq_dec j i) as [->|Hne]; [lra|].
        assert (f best <= f j) by (apply Hmin; lia). lra.
      * intros j Hj. assert (f best <= f j) by (apply Hmin; lia). lra.
      * repeat split.
        -- lia.
        -- intros j Hj. apply H2. lia.
        -- exact H3.
    + destruct (IH (S i) best) as (H1 & H2 & H3).
      * lia.
      * intros j Hj. destruct (Nat.eq_dec j i) as [->|Hne]; [lra|].
        apply Hmin. lia.
      * exact Hfirst.
      * repeat split.
        -- lia.
        -- intros j Hj. apply H2. lia.
        -- exact H3.
Qed.

Lemma map_nth_seq (l : list R) (d : R) (i : nat) :
  map (fun j => nth j l d) (seq i (length l - i)) = skipn i l.
Proof.
  revert i. induction l as [|x l IH]; intros i.
  - simpl. now destruct i.
  - destruct i as [|i].
    + simpl length. rewrite Nat.sub_0_r. simpl. f_equal.
      rewrite <- seq_shift, map_map. simpl.
      specialize (IH 0%nat). rewrite Nat.sub_0_r in IH. exact IH.
    + simpl length. simpl skipn. rewrite <- IH.
      replace (S (length l) - S i)%nat with (length l - i)%nat by lia.
      rewrite <- seq_shift, map_map. reflexivity.
Qed.

(** [np.argmin] returns the first position of the least element. *)
Lemma argmin_first_min (l : list R) :
  l <> [] ->
  exists idx,
    argmin l = Ok idx
    /\ (idx < length l)%nat
    /\ (forall j, (j < length l)%nat -> nth idx l 0 <= nth j l 0)
    /\ (forall j, (j < idx)%nat -> nth idx l 0 < nth j l 0).
Proof.
  destruct l as [|x rest]; [congruence|]. intros _.
  eexists. split; [reflexivity|].
  set (l := x :: rest). set (f := fun j => nth j l 0).
  assert (Hrest : rest = map f (seq 1 (length rest))).
  { unfold f. generalize (map_nth_seq l 0 1). simpl.
    rewrite Nat.sub_0_r. intros ->. reflexivity. }
  assert (Hr : argmin_scan rest 1 0 x
               = argmin_scan (map f (seq 1 (length rest))) 1 0 (f 0%nat))
    by (rewrite <- Hrest; reflexivity).
  rewrite Hr.
  destruct (argmin_scan_first_min f (length rest) 1 0) as (H1 & H2 & H3).
  - lia.
  - intros j Hj. assert (j = 0%nat) by lia. subst j. lra.
  - intros j Hj. lia.
  - repeat split.
    + exact H1.
    + intros j Hj. apply H2. simpl in Hj. lia.
    + exact H3.
Qed.


(** ** Slices as index ranges *)

Lemma map_nth_firstn {A : Type} (d : A) (l : list A) :
  forall k, (k <= length l)%nat ->
    map (fun i => nth i l d) (seq 0 k) = firstn k l.
Proof.
  induction l as [|x l IH]; intros k Hk.
  - simpl in Hk. assert (k = 0%nat) by lia. subst k. reflexivity.
  - destruct k as [|k]; [reflexivity|].
    simpl. f_equal. rewrite <- seq_shift, map_map. simpl.
    apply IH. simpl in Hk. lia.
Qed.

(** [a[:-1]] holds the elements of index [0 .. n-2]. *)
Lemma removelast_by_index {A : Type} (d : A) (l : list A) :
  removelast l = map (fun i => nth i l d) (seq 0 (length l - 1)).
Proof.
  rewrite map_nth_firstn by lia.
  rewrite removelast_firstn_len.
  now replace (pred (length l)) with (length l - 1)%nat by lia.
Qed.

(** [a[1:]] holds the elements of index [1 .. n-1]. *)
Lemma tl_by_index {A : Type} (d : A) (l : list A) :
  tl l = map (fun i => nth (i + 1) l d) (seq 0 (length l - 1)).
Proof.
  destruct l as [|x l]; [reflexivity|].
  simpl length. rewrite Nat.sub_succ, Nat.sub_0_r. simpl tl.
  rewrite <- (firstn_all l) at 1.
  rewrite <- (map_nth_firstn d l (length l)) by lia.
  apply map_ext. intros i. rewrite Nat.add_1_r. reflexivity.
Qed.

(** ** Complex arithmetic *)

Lemma Cabs_sqr (a : C) : Cabs a ^ 2 = fst a * fst a + snd a * snd a.
Proof.
  unfold Cabs. rewrite <- Rsqr_pow2. apply Rsqr_sqrt. nra.
Qed.

Lemma Cabs_nonneg (a : C) : 0 <= Cabs a.
Proof. apply sqrt_pos. Qed.

Lemma Cabs_zero_iff (a : C) : Cabs a = 0 <-> a = C0.
Proof.
  split.
  - intros H. assert (H2 := Cabs_sqr a). rewrite H in H2.
    destruct a as [x y]. simpl in H2. unfold C0.
    assert (x = 0) by nra. assert (y = 0) by nra. now subst.
  - intros ->. unfold Cabs, C0. simpl.
    replace (0 * 0 + 0 * 0) with 0 by ring. apply sqrt_0.
Qed.

Lemma fold_left_Cadd (g : nat -> C) (idxs : list nat) (init : C) :
  fold_left (fun acc ind => Cadd acc (g ind)) idxs init
  = Cadd init (Csum (map g idxs)).
Proof.
  revert init. induction idxs as [|i idxs IH]; intros init; simpl.
  - unfold Cadd, C0. simpl. destruct init as [x y]. simpl. f_equal; ring.
  - rewrite IH. unfold Cadd. simpl. f_equal; ring.
Qed.

Lemma Rsum_nonneg (l : list R) :
  Forall (fun x => 0 <= x) l -> 0 <= Rsum l.
Proof.
  induction 1 as [|x l Hx _ IH]; simpl; lra.
Qed.

Lemma Rsum_sqr_nonneg {A : Type} (f : A -> C) (l : list A) :
  0 <= Rsum (map (fun i => Cabs (f i) ^ 2) l).
Proof.
  apply Rsum_nonneg. apply Forall_forall. intros x Hx.
  apply in_map_iff in Hx. destruct Hx as (i & <- & _).
  rewrite Cabs_sqr. nra.
Qed.

(** A sum of squares that vanishes has only zero terms. *)
Lemma Rsum_sqr_zero {A : Type} (f : A -> C) (l : list A) :
  Rsum (map (fun i => Cabs (f i) ^ 2) l) = 0 ->
  forall i, In i l -> f i = C0.
Proof.
  induction l as [|x l IH]; intros H i Hi; [contradiction|].
  change (Cabs (f x) ^ 2 + Rsum (map (fun i => Cabs (f i) ^ 2) l) = 0) in H.
  assert (H1 := Rsum_sqr_nonneg f l).
  assert (H2 : 0 <= Cabs (f x) ^ 2) by (rewrite Cabs_sqr; nra).
  destruct Hi as [<-|Hi].
  - apply Cabs_zero_iff.
    assert (H3 : Cabs (f x) ^ 2 = 0) by lra.
    assert (H4 := Cabs_nonneg (f x)). nra.
  - apply IH; [lra|exact Hi].
Qed.

(** ** The Cauchy-Schwarz bound *)

Lemma cs_step (N1 N2 SA SB r i a b : R) :
  0 <= SA -> 0 <= SB -> 0 <= a -> 0 <= b ->
  N1 * N1 + N2 * N2 <= SA * SB ->
  r * r + i * i = a * b ->
  (N1 + r) * (N1 + r) + (N2 + i) * (N2 + i) <= (SA + a) * (SB + b).
Proof.
  intros HA HB Ha Hb HN Hri.
  set (x := N1 * r + N2 * i).
  set (y := SA * b + a * SB).
  assert (Hy : 0 <= y) by (unfold y; nra).
  assert (Hlag : x * x <= (N1 * N1 + N2 * N2) * (r * r + i * i)).
  { unfold x. assert (H0 := Rle_0_sqr (N1 * i - N2 * r)).
    unfold Rsqr in H0. lra. }
  assert (Hprod : (N1 * N1 + N2 * N2) * (r * r + i * i)
                  <= (SA * SB) * (a * b)).
  { rewrite Hri. apply Rmult_le_compat_r; [nra|exact HN]. }
  assert (Hamgm : 4 * ((SA * SB) * (a * b)) <= y * y).
  { unfold y. assert (H0 := Rle_0_sqr (SA * b - a * SB)).
    unfold Rsqr in H0. lra. }
  assert (Hx : 2 * x <= y).
  { destruct (Rle_lt_dec (2 * x) y) as [H|H]; [exact H|].
    assert (y * y < (2 * x) * (2 * x)) by nra. nra. }
  unfold x, y in Hx. nra.
Qed.

Lemma Csum_cons (c : C) (l : list C) : Csum (c :: l) = Cadd c (Csum l).
Proof. reflexivity. Qed.

Lemma Rsum_cons (x : R) (l : list R) : Rsum (x :: l) = x + Rsum l.
Proof. reflexivity. Qed.

Lemma cauchy_schwarz (a b : nat -> C) (idxs : list nat) :
  let N := Csum (map (fun i => Cmul (a i) (Cconj (b i))) idxs) in
  fst N * fst N + snd N * snd N
  <= Rsum (map (fun i => Cabs (a i) ^ 2) idxs)
     * Rsum (map (fun i => Cabs (b i) ^ 2) idxs).
Proof.
  induction idxs as [|k idxs IH].
  - simpl. lra.
  - cbv zeta in IH |- *.
    rewrite !map_cons, Csum_cons, !Rsum_cons.
    set (N := Csum (map (fun i => Cmul (a i) (Cconj (b i))) idxs)) in *.
    set (SA := Rsum (map (fun i => Cabs (a i) ^ 2) idxs)) in *.
    set (SB := Rsum (map (fun i => Cabs (b i) ^ 2) idxs)) in *.
    assert (HA : 0 <= SA) by apply Rsum_sqr_nonneg.
    assert (HB : 0 <= SB) by apply Rsum_sqr_nonneg.
    rewrite !Cabs_sqr.
    destruct (a k) as [x y], (b k) as [u v].
    unfold Cadd, Cmul, Cconj. cbn [fst snd].
    replace ((x * u - y * - v + fst N) * (x * u - y * - v + fst N)
             + (x * - v + y * u + snd N) * (x * - v + y * u + snd N))
      with ((fst N + (x * u + y * v)) * (fst N + (x * u + y * v))
            + (snd N + (y * u - x * v)) * (snd N + (y * u - x * v)))
      by ring.
    replace ((x * x + y * y + SA) * (u * u + v * v + SB))
      with ((SA + (x * x + y * y)) * (SB + (u * u + v * v))) by ring.
    apply cs_step; try assumption; try nra.
Qed.

(** ** The single-frequency estimator *)

Lemma Zceil_pos (x : R) : 0 < x -> (1 <= Zceil x)%Z.
Proof.
  intros Hx. destruct (Zceil_bound x) as [_ H].
  assert (H0 : 0 < IZR (Zceil x)) by lra.
  apply lt_IZR in H0. lia.
Qed.

Lemma window_length_ok (n_cycles fs freq : R) :
  0 < freq -> 0 < fs -> 0 < n_cycles ->
  window_length n_cycles fs freq = Ok (Zceil (n_cycles * fs / freq))
  /\ (1 <= Zceil (n_cycles * fs / freq))%Z.
Proof.
  intros Hf Hs Hc. unfold window_length.
  destruct (Req_dec_T freq 0) as [E|_]; [lra|].
  split; [reflexivity|].
  apply Zceil_pos. apply Rdiv_lt_0_compat; [nra|exact Hf].
Qed.

Lemma fdiv_nonzero (x y : R) : y <> 0 -> fdiv x y = Fin (x / y).
Proof.
  intros Hy. unfold fdiv. now destruct (Req_dec_T y 0).
Qed.

Lemma fdiv_zero_zero : fdiv 0 0 = NaN.
Proof.
  unfold fdiv. destruct (Req_dec_T 0 0) as [_|H]; [|now elim H].
  destruct (Req_dec_T 0 0) as [_|H]; [reflexivity|now elim H].
Qed.

(** [np.abs(num / d)] is [|num| / d] for a divisor that is not negative,
    zero included. *)
Lemma np_abs_cdiv (num : C) (d : R) :
  0 <= d -> np_abs (cdiv num d) = fdiv (Cabs num) d.
Proof.
  intros Hd. destruct num as [a b]. unfold cdiv, fdiv. cbn [fst snd].
  destruct (Req_dec_T d 0) as [Hz|Hnz].
  - destruct (Req_dec_T (Cabs (a, b)) 0) as [Habs|Habs].
    + apply Cabs_zero_iff in Habs. injection Habs as -> ->.
      destruct (Req_dec_T 0 0) as [_|H]; [reflexivity|now elim H].
    + assert (Hpos : 0 < Cabs (a, b)).
      { assert (H := Cabs_nonneg (a, b)). lra. }
      destruct (Rlt_dec 0 (Cabs (a, b))) as [_|H]; [|contradiction].
      destruct (Req_dec_T a 0) as [Ha|Ha].
      * destruct (Req_dec_T b 0) as [Hb|Hb].
        -- subst a b. elim Habs. now apply Cabs_zero_iff.
        -- destruct (Rlt_dec 0 b); reflexivity.
      * destruct (Rlt_dec 0 a); reflexivity.
  - cbn [np_abs]. f_equal. unfold Cabs. cbn [fst snd].
    assert (Hd' : 0 < d) by lra.
    replace (a / d * (a / d) + b / d * (b / d))
      with ((a * a + b * b) / (d * d)) by (field; exact Hnz).
    rewrite sqrt_div_alt by nra.
    now rewrite sqrt_square by exact Hd.
Qed.

Lemma lcs_num_by_index (l : list C) :
  lcs_num l = spec_numerator (fun i => nth i l C0) (length l).
Proof.
  unfold lcs_num, spec_numerator.
  rewrite (fold_left_Cadd
             (fun ind => Cmul (nth ind l C0) (Cconj (nth (ind + 1) l C0)))).
  unfold Cadd, C0. cbn [fst snd].
  destruct (Csum _) as [x y]. cbn [fst snd]. f_equal; ring.
Qed.

Lemma lcs_denom_by_index (l : list C) :
  lcs_denom l = spec_denominator (fun i => nth i l C0) (length l).
Proof.
  unfold lcs_denom, spec_denominator.
  rewrite (removelast_by_index C0 l), (tl_by_index C0 l), !map_map.
  do 3 f_equal.
  rewrite <- seq_shift, map_map.
  apply map_ext. intros i. now rewrite Nat.add_1_r.
Qed.

Lemma lcs_denom_nonneg (l : list C) : 0 <= lcs_denom l.
Proof. apply sqrt_pos. Qed.

(** Cauchy-Schwarz on consecutive pairs of coefficients. *)
Lemma lcs_num_le_denom (l : list C) : Cabs (lcs_num l) <= lcs_denom l.
Proof.
  rewrite lcs_num_by_index, lcs_denom_by_index.
  unfold spec_numerator, spec_denominator, Cabs.
  apply sqrt_le_1_alt.
  rewrite <- (seq_shift (length l - 1) 0), map_map.
  generalize (cauchy_schwarz (fun i => nth i l C0)
                (fun i => nth (i + 1) l C0) (seq 0 (length l - 1))).
  cbv zeta. intros H.
  erewrite (map_ext (fun x => Cabs (nth (S x) l C0) ^ 2)).
  - exact H.
  - intros i. cbv beta. now rewrite Nat.add_1_r.
Qed.

(** A zero denominator forces a zero numerator. *)
Lemma lcs_denom_zero_num (l : list C) :
  lcs_denom l = 0 -> lcs_num l = C0.
Proof.
  intros H. apply Cabs_zero_iff.
  assert (H1 := lcs_num_le_denom l). assert (H2 := Cabs_nonneg (lcs_num l)).
  lra.
Qed.

(** Fewer than two coefficients: numerator and denominator are zero. *)
Lemma lcs_few_chunks (l : list C) :
  (length l < 2)%nat -> lcs_denom l = 0.
Proof.
  intros H. unfold lcs_denom.
  destruct l as [|c [|c' l]]; simpl in H; try lia; simpl.
  - rewrite Rmult_0_l. apply sqrt_0.
  - rewrite Rmult_0_l. apply sqrt_0.
Qed.

Lemma fft_bin_returns (n_samps : Z) (fs freq : R) :
  (1 <= n_samps)%Z -> fs <> 0 ->
  exists idx, fft_bin n_samps fs freq = Ok idx.
Proof.
  intros Hn Hfs. unfold fft_bin.
  destruct (Req_dec_T fs 0) as [E|_]; [contradiction|].
  assert (Hlen := fftfreq_length n_samps (1 / fs) Hn).
  destruct (fftfreq n_samps (1 / fs)) as [|f grid].
  - simpl in Hlen. lia.
  - simpl. eexists. reflexivity.
Qed.

Lemma tapered_coef_nil (n_samples : Z) (bin : nat) :
  tapered_coef n_samples bin [] = C0.
Proof. unfold tapered_coef. now destruct bin. Qed.

Lemma chunk_coefs_nth (chunks : list (list R)) (n_samples : Z) (bin i : nat) :
  nth i (chunk_coefs chunks (hann n_samples) bin) C0
  = tapered_coef n_samples bin (nth i chunks []).
Proof.
  transitivity (nth i (map (tapered_coef n_samples bin) chunks)
                     (tapered_coef n_samples bin [])).
  - rewrite tapered_coef_nil. reflexivity.
  - apply map_nth.
Qed.

Lemma chunk_coefs_length (chunks : list (list R)) (hw : list R) (bin : nat) :
  length (chunk_coefs chunks hw bin) = length chunks.
Proof. apply length_map. Qed.

(** On positive parameters the coefficients are computed without an
    exception, one per chunk. *)
Lemma fft_coefs_of_ok (sig : list R) (freq fs n_cycles : R) :
  0 < freq -> 0 < fs -> 0 < n_cycles ->
  let n_samples := Zceil (n_cycles * fs / freq) in
  exists chunks bin,
    _nonoverlapping_chunks sig n_samples = Ok chunks
    /\ fft_bin n_samples fs freq = Ok bin
    /\ Z.of_nat (length chunks) = (Z.of_nat (length sig) / n_samples)%Z
    /\ fft_coefs_of sig freq fs n_cycles
       = Ok (chunk_coefs chunks (hann n_samples) bin).
Proof.
  intros Hf Hs Hc n_samples.
  destruct (window_length_ok n_cycles fs freq Hf Hs Hc) as [Hw Hn].
  fold n_samples in Hw, Hn.
  destruct (fft_bin_returns n_samples fs freq Hn) as [bin Hbin]; [lra|].
  eexists. exists bin.
  split; [apply chunks_ok; exact Hn|]. split; [exact Hbin|]. split.
  - rewrite rows_of_length, Nat2Z.inj_div. f_equal. lia.
  - unfold fft_coefs_of. rewrite Hw. cbn [bind].
    rewrite chunks_ok by exact Hn. cbn [bind]. rewrite Hbin. reflexivity.
Qed.






(** ** Windows of one sample

    With [n_cycles * fs = freq] the window holds one sample, the taper is
    [[1.0]] and the transform of a chunk is the sample itself: the
    estimator can be followed by hand. *)

Lemma Zceil_one : Zceil (1 * 1 / 1) = 1%Z.
Proof. apply Zceil_eq. simpl. lra. Qed.

Lemma fft_single (x : R) : fft [x] = [(x, 0)].
Proof.
  unfold fft, Csum, Cscale, Cadd, cis, C0. simpl.
  replace (- (2 * PI * 0 * 0 / 1)) with 0 by (field).
  rewrite cos_0, sin_0. f_equal. f_equal; ring.
Qed.

Lemma rows_of_singletons (sig : list R) :
  rows_of sig (length sig) 1 = map (fun x => [x]) sig.
Proof.
  induction sig as [|x sig IH]; [reflexivity|].
  simpl. now rewrite IH.
Qed.

Lemma chunks_of_one (sig : list R) :
  _nonoverlapping_chunks sig 1 = Ok (map (fun x => [x]) sig).
Proof.
  rewrite chunks_ok by lia.
  change (Z.to_nat 1) with 1%nat.
  rewrite Nat.div_1_r, Nat.mul_1_r, firstn_all.
  now rewrite rows_of_singletons.
Qed.

Lemma fft_bin_one (fs freq : R) : fs <> 0 -> fft_bin 1 fs freq = Ok 0%nat.
Proof.
  intros Hfs. unfold fft_bin.
  destruct (Req_dec_T fs 0) as [E|_]; [contradiction|]. reflexivity.
Qed.

(** The coefficients for [freq = fs = n_cycles = 1]: the samples. *)
Lemma fft_coefs_unit_window (sig : list R) :
  fft_coefs_of sig 1 1 1 = Ok (map (fun x => (x * 1, 0)) sig).
Proof.
  unfold fft_coefs_of, window_length.
  destruct (Req_dec_T 1 0) as [E|_]; [lra|].
  rewrite Zceil_one. cbn [bind].
  rewrite chunks_of_one. cbn [bind].
  rewrite fft_bin_one by lra. cbn [bind]. f_equal.
  unfold chunk_coefs. rewrite map_map. apply map_ext.
  intros x. change (hann 1) with [1]. unfold times. simpl combine.
  cbn [map fst snd]. rewrite fft_single. reflexivity.
Qed.








(** ** The frequency-range orchestrator *)

Lemma set_item_middle {A : Type} (pre suf : list A) (x v : A) :
  set_item (pre ++ x :: suf) (length pre) v = pre ++ v :: suf.
Proof.
  induction pre as [|p pre IH]; simpl; [reflexivity|]. now rewrite IH.
Qed.

(** The loop over [enumerate(freqs)] writes, position by position, the
    estimates of the frequencies into the array of zeros. *)
Lemma fill_lc_from (sig : list R) (fs n_cycles : R) :
  forall (freqs : list R) (pre suf : list npfloat),
    length suf = length freqs ->
    fill_lc sig fs n_cycles (combine (seq (length pre) (length freqs)) freqs)
            (pre ++ suf)
    = (vs <- estimate_each sig fs n_cycles freqs ;; Ok (pre ++ vs)).
Proof.
  induction freqs as [|freq freqs IH]; intros pre suf Hlen.
  - destruct suf; [|discriminate]. reflexivity.
  - destruct suf as [|s suf]; [discriminate|].
    simpl. destruct (_lagged_coherence_1freq sig freq fs n_cycles) as [v|e];
      [|reflexivity].
    cbn [bind]. rewrite set_item_middle.
    replace (pre ++ v :: suf) with ((pre ++ [v]) ++ suf)
      by now rewrite <- app_assoc.
    replace (S (length pre)) with (length (pre ++ [v]))
      by (rewrite length_app; simpl; lia).
    rewrite IH by (simpl in Hlen; lia).
    destruct (estimate_each sig fs n_cycles freqs) as [vs|e]; [|reflexivity].
    cbn [bind]. now rewrite <- app_assoc.
Qed.

Lemma fill_lc_zeros (sig : list R) (fs n_cycles : R) (freqs : list R) :
  fill_lc sig fs n_cycles (enumerate freqs) (repeat (Fin 0) (length freqs))
  = estimate_each sig fs n_cycles freqs.
Proof.
  unfold enumerate.
  generalize (fill_lc_from sig fs n_cycles freqs []
                (repeat (Fin 0) (length freqs)) (repeat_length _ _)).
  cbn [length app]. intros ->.
  destruct (estimate_each sig fs n_cycles freqs); reflexivity.
Qed.

Lemma estimate_each_length (sig : list R) (fs n_cycles : R) :
  forall freqs lc,
    estimate_each sig fs n_cycles freqs = Ok lc -> length lc = length freqs.
Proof.
  induction freqs as [|freq freqs IH]; intros lc H; simpl in H.
  - injection H as <-. reflexivity.
  - destruct (_lagged_coherence_1freq sig freq fs n_cycles) as [v|e];
      [|discriminate].
    cbn [bind] in H.
    destruct (estimate_each sig fs n_cycles freqs) as [vs|e]; [|discriminate].
    cbn [bind] in H. injection H as <-. simpl. f_equal. now apply IH.
Qed.

Lemma count_nan_positive (lc : list npfloat) :
  (0 <? count_nan lc)%nat = existsb isnan lc.
Proof.
  unfold count_nan. induction lc as [|x lc IH]; [reflexivity|].
  simpl. destruct (isnan x); simpl; [reflexivity|exact IH].
Qed.

(** The function in terms of the per-frequency values: what is printed
    and what is returned. *)
Lemma lagged_coherence_unfold (sig : list R) (f_range : R * R)
  (fs n_cycles f_step : R) (return_spectrum verbose : bool) (out : stdout) :
  lagged_coherence sig f_range fs n_cycles f_step return_spectrum verbose out
  = (p <- per_frequency_values sig f_range fs n_cycles f_step ;;
     Ok (if return_spectrum then Spectrum (fst p) (snd p)
         else MeanValue (np_mean (fst p)),
         out ++ notices (fst p) verbose)).
Proof.
  unfold lagged_coherence, per_frequency_values.
  destruct (arange (fst f_range) (snd f_range + f_step) f_step)
    as [freqs|e]; [|reflexivity].
  cbn [bind]. rewrite fill_lc_zeros.
  destruct (estimate_each sig fs n_cycles freqs) as [lc|e]; [|reflexivity].
  cbn [bind fst snd]. rewrite count_nan_positive. unfold notices.
  destruct (existsb isnan lc && verbose), return_spectrum;
    now rewrite ?app_nil_r.
Qed.

(** What the estimator returns once its coefficients are known. *)
Lemma estimator_value (sig : list R) (freq fs n_cycles : R) (coefs : list C) :
  fft_coefs_of sig freq fs n_cycles = Ok coefs ->
  _lagged_coherence_1freq sig freq fs n_cycles
  = Ok (fdiv (Cabs (lcs_num coefs)) (lcs_denom coefs)).
Proof.
  intros H. unfold _lagged_coherence_1freq. rewrite H. cbn [bind].
  now rewrite np_abs_cdiv by apply lcs_denom_nonneg.
Qed.

Lemma estimator_returns (sig : list R) (freq fs n_cycles : R) :
  0 < freq -> 0 < fs -> 0 < n_cycles ->
  exists v, _lagged_coherence_1freq sig freq fs n_cycles = Ok v.
Proof.
  intros Hf Hs Hc.
  destruct (fft_coefs_of_ok sig freq fs n_cycles Hf Hs Hc)
    as (chunks & bin & _ & _ & _ & Hco).
  eexists. apply estimator_value. exact Hco.
Qed.

(** ** The frequency sequence *)

Lemma arange_values (start stop step : R) :
  step <> 0 ->
  arange start stop step
  = Ok (map (fun i => start + INR i * step)
            (seq 0 (Z.to_nat (Zceil ((stop - start) / step))))).
Proof.
  intros H. unfold arange. now destruct (Req_dec_T step 0).
Qed.

Lemma arange_progression (start stop step : R) (freqs : list R) :
  arange start stop step = Ok freqs ->
  freqs = map (fun i => start + INR i * step) (seq 0 (length freqs)).
Proof.
  unfold arange. destruct (Req_dec_T step 0); [discriminate|].
  intros H. injection H as <-. now rewrite length_map, length_seq.
Qed.

(** With a positive step no value is below the start. *)
Lemma arange_from_start (start stop step : R) (freqs : list R) :
  0 < step -> arange start stop step = Ok freqs ->
  Forall (fun f => start <= f) freqs.
Proof.
  intros Hstep H. rewrite (arange_progression _ _ _ _ H).
  apply Forall_forall. intros f Hf. apply in_map_iff in Hf.
  destruct Hf as (i & <- & _).
  assert (0 <= INR i) by apply pos_INR. nra.
Qed.

(** With a positive step every value is below the stop. *)
Lemma arange_below_stop (start stop step : R) (freqs : list R) :
  0 < step -> arange start stop step = Ok freqs ->
  Forall (fun f => f < stop) freqs.
Proof.
  intros Hstep H. rewrite arange_values in H by lra. injection H as <-.
  apply Forall_forall. intros f Hf. apply in_map_iff in Hf.
  destruct Hf as (i & <- & Hi). apply in_seq in Hi.
  set (q := (stop - start) / step) in *.
  destruct (Zceil_bound q) as [Hlo _].
  assert (Hi' : (Z.of_nat i < Zceil q)%Z) by lia.
  assert (HiR : INR i + 1 <= IZR (Zceil q)).
  { rewrite INR_IZR_INZ, <- plus_IZR. apply IZR_le. lia. }
  assert (Hq : INR i < q) by lra.
  assert (Hqs : q * step = stop - start) by (unfold q; field; lra).
  nra.
Qed.

(** An upper bound that lies [k] steps above the lower one is the last
    frequency. *)
Lemma arange_aligned (low step : R) (k : nat) :
  0 < step ->
  arange low (low + INR k * step + step) step
  = Ok (map (fun i => low + INR i * step) (seq 0 (S k))).
Proof.
  intros Hstep. rewrite arange_values by lra. do 3 f_equal.
  replace ((low + INR k * step + step - low) / step) with (IZR (Z.of_nat (S k))).
  - unfold Zceil. rewrite ZfloorNZ. lia.
  - rewrite <- INR_IZR_INZ, S_INR. field. lra.
Qed.

Lemma arange_empty (start stop step : R) :
  0 < step -> stop <= start -> arange start stop step = Ok [].
Proof.
  intros Hstep Hle. rewrite arange_values by lra.
  assert (Hq : (stop - start) / step <= 0).
  { unfold Rdiv. assert (0 < / step) by now apply Rinv_0_lt_compat. nra. }
  assert (Hc : (Zceil ((stop - start) / step) <= 0)%Z).
  { destruct (Zceil_bound ((stop - start) / step)) as [Hlo _].
    assert (H1 : IZR (Zceil ((stop - start) / step)) < 1) by lra.
    apply lt_IZR in H1. lia. }
  replace (Z.to_nat (Zceil ((stop - start) / step))) with 0%nat by lia.
  reflexivity.
Qed.

(** ** Values and output of an invocation *)

Lemma estimate_each_ok (sig : list R) (fs n_cycles : R) (freqs : list R) :
  0 < fs -> 0 < n_cycles -> Forall (fun f => 0 < f) freqs ->
  exists lc, estimate_each sig fs n_cycles freqs = Ok lc.
Proof.
  intros Hs Hc. induction 1 as [|freq freqs Hf _ IH].
  - now exists [].
  - destruct (estimator_returns sig freq fs n_cycles Hf Hs Hc) as [v Hv].
    destruct IH as [vs Hvs]. exists (v :: vs).
    simpl. now rewrite Hv, Hvs.
Qed.

(** On a positive lower bound, step, sampling rate and number of cycles
    no exception is raised. *)
Lemma per_frequency_values_ok (sig : list R) (f_range : R * R)
  (fs n_cycles f_step : R) :
  0 < fst f_range -> 0 < f_step -> 0 < fs -> 0 < n_cycles ->
  exists lc freqs,
    per_frequency_values sig f_range fs n_cycles f_step = Ok (lc, freqs).
Proof.
  intros Hlow Hstep Hs Hc. unfold per_frequency_values.
  destruct (arange (fst f_range) (snd f_range + f_step) f_step)
    as [freqs|e] eqn:Har.
  - destruct (estimate_each_ok sig fs n_cycles freqs Hs Hc) as [lc Hlc].
    + eapply Forall_impl; [|exact (arange_from_start _ _ _ _ Hstep Har)].
      intros f Hf. simpl in Hf. lra.
    + exists lc, freqs. cbn [bind]. now rewrite Hlc.
  - rewrite arange_values in Har by lra. discriminate.
Qed.

Lemma per_frequency_values_shape (sig : list R) (f_range : R * R)
  (fs n_cycles f_step : R) (lc : list npfloat) (freqs : list R) :
  per_frequency_values sig f_range fs n_cycles f_step = Ok (lc, freqs) ->
  arange (fst f_range) (snd f_range + f_step) f_step = Ok freqs
  /\ length lc = length freqs.
Proof.
  unfold per_frequency_values.
  destruct (arange (fst f_range) (snd f_range + f_step) f_step)
    as [fr|e]; [|discriminate].
  cbn [bind].
  destruct (estimate_each sig fs n_cycles fr) as [vs|e] eqn:Hvs;
    [|discriminate].
  cbn [bind]. intros H. injection H as <- <-.
  split; [reflexivity|]. now apply estimate_each_length in Hvs.
Qed.

(** ** The mean *)

Lemma np_add_comm (x y : npfloat) : np_add x y = np_add y x.
Proof. destruct x, y; simpl; try reflexivity. f_equal. ring. Qed.

Lemma np_add_assoc (x y z : npfloat) :
  np_add x (np_add y z) = np_add (np_add x y) z.
Proof. destruct x, y, z; simpl; try reflexivity. f_equal. ring. Qed.

(** [np.mean] is the arithmetic mean. *)
Lemma np_mean_arithmetic (l : list npfloat) : np_mean l = arithmetic_mean l.
Proof.
  unfold np_mean, arithmetic_mean, np_sum. f_equal.
  apply fold_symmetric.
  - apply np_add_assoc.
  - intros y. apply np_add_comm.
Qed.

Lemma arithmetic_mean_nan (l : list npfloat) :
  In NaN l -> arithmetic_mean l = NaN.
Proof.
  intros H. unfold arithmetic_mean.
  assert (Hsum : fold_right np_add (Fin 0) l = NaN).
  { induction l as [|x l IH]; [contradiction|].
    simpl. destruct H as [->|H]; [reflexivity|].
    rewrite IH by exact H. now destruct x. }
  now rewrite Hsum.
Qed.

(** ** The claims on the orchestrator *)

(** C8.  With [return_spectrum=True], whatever the function returns is a
    pair of a value sequence and a frequency sequence of equal length,
    and the frequency sequence is the generated progression
    [low, low + f_step, ...] of [np.arange]; and on a positive lower
    bound, step, sampling rate and number of cycles it does return. *)
Theorem spectrum_sequences_aligned (sig : list R) (f_range : R * R)
  (fs n_cycles f_step : R) (verbose : bool) (out : stdout) :
  (forall r out',
      lagged_coherence sig f_range fs n_cycles f_step true verbose out
      = Ok (r, out') ->
      exists lc freqs,
        r = Spectrum lc freqs
        /\ length lc = length freqs
        /\ arange (fst f_range) (snd f_range + f_step) f_step = Ok freqs
        /\ freqs = map (fun i => fst f_range + INR i * f_step)
                       (seq 0 (length freqs)))
  /\ (0 < fst f_range -> 0 < f_step -> 0 < fs -> 0 < n_cycles ->
      exists r out',
        lagged_coherence sig f_range fs n_cycles f_step true verbose out
        = Ok (r, out')).
Proof.
  rewrite lagged_coherence_unfold. split.
  - intros r out' H.
    destruct (per_frequency_values sig f_range fs n_cycles f_step)
      as [[lc freqs]|e] eqn:Hp; [|discriminate].
    cbn [bind fst snd] in H. injection H as <- <-.
    destruct (per_frequency_values_shape _ _ _ _ _ _ _ Hp) as [Har Hlen].
    exists lc, freqs. repeat split; try assumption.
    now apply arange_progression in Har.
  - intros Hlow Hstep Hs Hc.
    destruct (per_frequency_values_ok sig f_range fs n_cycles f_step
                Hlow Hstep Hs Hc) as (lc & freqs & Hp).
    rewrite Hp. cbn [bind]. eexists. eexists. reflexivity.
Qed.

Lemma spectrum_sequences_aligned_witness :
  exists lc freqs out',
    lagged_coherence [1; 1; 1; 1] (1, 2) 1 1 1 true true [] 
    = Ok (Spectrum lc freqs, out')
    /\ length lc = length freqs.
Proof.
  destruct (spectrum_sequences_aligned [1; 1; 1; 1] (1, 2) 1 1 1 true [])
    as [Hshape Hruns].
  destruct Hruns as (r & out' & Hr); simpl; try lra.
  destruct (Hshape r out' Hr) as (lc & freqs & -> & Hlen & _).
  exists lc, freqs, out'. split; [exact Hr|exact Hlen].
Defined.

(** C7.  With the same arguments, the invocation with
    [return_spectrum=False] returns the arithmetic mean of the values the
    invocation with [return_spectrum=True] returns (and raises when that
    one raises); the mean of values one of which is [nan] is [nan]. *)
Theorem mean_of_spectrum (sig : list R) (f_range : R * R)
  (fs n_cycles f_step : R) (verbose : bool) (out : stdout) :
  lagged_coherence sig f_range fs n_cycles f_step false verbose out
  = (p <- lagged_coherence sig f_range fs n_cycles f_step true verbose out ;;
     match fst p with
     | Spectrum lc _ => Ok (MeanValue (arithmetic_mean lc), snd p)
     | MeanValue _ => Ok p
     end)
  /\ (forall lc, In NaN lc -> arithmetic_mean lc = NaN).
Proof.
  split; [|exact arithmetic_mean_nan].
  rewrite !lagged_coherence_unfold.
  destruct (per_frequency_values sig f_range fs n_cycles f_step)
    as [[lc freqs]|e]; [|reflexivity].
  cbn [bind fst snd]. now rewrite np_mean_arithmetic.
Qed.

Lemma mean_of_spectrum_witness :
  arithmetic_mean [Fin 1; NaN] = NaN.
Proof.
  apply (proj2 (mean_of_spectrum [] (1, 1) 1 1 1 true [])).
  simpl. right. now left.
Defined.

(** C9.  When an invocation has computed its per-frequency values [lc],
    then for either setting of [return_spectrum] there is one returned
    value, the same whether [verbose] is set or not, and the invocation
    adds to the standard output exactly one notice when [verbose] is set
    and some value of [lc] is [nan] (however many are), and nothing
    otherwise. *)
Theorem single_notice (sig : list R) (f_range : R * R)
  (fs n_cycles f_step : R) (return_spectrum : bool)
  (lc : list npfloat) (freqs : list R) :
  lagged_coherence sig f_range fs n_cycles f_step true false []
  = Ok (Spectrum lc freqs, []) ->
  exists r,
    forall (verbose : bool) (out : stdout),
      lagged_coherence sig f_range fs n_cycles f_step return_spectrum
                       verbose out
      = Ok (r, out ++ (if existsb isnan lc && verbose then [lc_warning]
                       else [])).
Proof.
  rewrite lagged_coherence_unfold.
  destruct (per_frequency_values sig f_range fs n_cycles f_step)
    as [[lc' freqs']|e] eqn:Hp; [|discriminate].
  cbn [bind fst snd]. intros H. injection H as <- <- _.
  eexists. intros verbose out.
  rewrite lagged_coherence_unfold, Hp. cbn [bind fst snd]. reflexivity.
Qed.

(** C10.  When the generated frequency sequence is empty, no exception
    is raised and nothing is printed: with [return_spectrum=True] the
    function returns an empty value sequence and the empty frequency
    sequence, with [return_spectrum=False] it returns [nan]. *)
Theorem empty_frequency_sequence (sig : list R) (f_range : R * R)
  (fs n_cycles f_step : R) (verbose : bool) (out : stdout) :
  arange (fst f_range) (snd f_range + f_step) f_step = Ok [] ->
  lagged_coherence sig f_range fs n_cycles f_step true verbose out
  = Ok (Spectrum [] [], out)
  /\ lagged_coherence sig f_range fs n_cycles f_step false verbose out
     = Ok (MeanValue NaN, out).
Proof.
  intros H. unfold lagged_coherence. rewrite H. cbn. unfold np_mean. cbn.
  rewrite fdiv_zero_zero. split; reflexivity.
Qed.

(** An inverted range, [high < low - f_step] for a positive step,
    generates no frequency. *)
Lemma inverted_range_empty (low high f_step : R) :
  0 < f_step -> high < low - f_step ->
  arange low (high + f_step) f_step = Ok [].
Proof. intros Hstep H. apply arange_empty; lra. Qed.

Lemma empty_frequency_sequence_witness :
  lagged_coherence [1; 1] (5, 1) 1 1 1 true true [] = Ok (Spectrum [] [], [])
  /\ lagged_coherence [1; 1] (5, 1) 1 1 1 false true []
     = Ok (MeanValue NaN, []).
Proof.
  apply (empty_frequency_sequence [1; 1] (5, 1) 1 1 1 true []).
  apply inverted_range_empty; simpl; lra.
Defined.

(** ** Invocations followed by hand *)

Lemma arange_one_to_one : arange 1 (1 + 1) 1 = Ok [1].
Proof.
  rewrite arange_values by lra.
  replace (Zceil ((1 + 1 - 1) / 1)) with 1%Z
    by (symmetry; apply Zceil_eq; simpl; lra).
  simpl. do 2 f_equal. ring.
Qed.

(** One sample is not enough for two windows: the value is [nan]. *)
Lemma estimator_one_sample : _lagged_coherence_1freq [1] 1 1 1 = Ok NaN.
Proof.
  rewrite (estimator_value _ _ _ _ _ (fft_coefs_unit_window [1])).
  assert (Hden : lcs_denom (map (fun x => (x * 1, 0)) [1]) = 0)
    by (apply lcs_few_chunks; simpl; lia).
  rewrite Hden, (lcs_denom_zero_num _ Hden).
  replace (Cabs C0) with 0 by (symmetry; now apply Cabs_zero_iff).
  now rewrite fdiv_zero_zero.
Qed.

Lemma lagged_coherence_one_sample (return_spectrum verbose : bool)
  (out : stdout) :
  lagged_coherence [1] (1, 1) 1 1 1 return_spectrum verbose out
  = Ok (if return_spectrum then Spectrum [NaN] [1] else MeanValue NaN,
        out ++ (if verbose then [lc_warning] else [])).
Proof.
  rewrite lagged_coherence_unfold. unfold per_frequency_values.
  cbn [fst snd]. rewrite arange_one_to_one. cbn [bind estimate_each].
  rewrite estimator_one_sample. cbn [bind fst snd].
  unfold notices. cbn [existsb isnan orb andb].
  now destruct return_spectrum.
Qed.

Lemma single_notice_witness :
  exists r,
    forall (verbose : bool) (out : stdout),
      lagged_coherence [1] (1, 1) 1 1 1 false verbose out
      = Ok (r, out ++ (if existsb isnan [NaN] && verbose then [lc_warning]
                       else [])).
Proof.
  apply (single_notice [1] (1, 1) 1 1 1 false [NaN] [1]).
  apply (lagged_coherence_one_sample true false []).
Defined.

(** Range [[1, 4]] swept in steps of 2. *)
Lemma arange_one_four_two : arange 1 (4 + 2) 2 = Ok [1; 3; 5].
Proof.
  rewrite arange_values by lra.
  replace (Zceil ((4 + 2 - 1) / 2)) with 3%Z
    by (symmetry; apply Zceil_eq; simpl; lra).
  simpl. repeat f_equal; ring.
Qed.

(** C5.  The invocation on the range [[1, 4]] with step 2 estimates the
    frequencies 1, 3 and 5: the last generated value is above the upper
    bound 4 of the range. *)
Theorem frequency_sequence_overshoots :
  exists lc freqs out',
    lagged_coherence [1; 2; 3; 4; 5; 6] (1, 4) 10 3 2 true true []
    = Ok (Spectrum lc freqs, out')
    /\ freqs = [1; 3; 5]
    /\ 4 < last freqs 0.
Proof.
  rewrite lagged_coherence_unfold.
  destruct (per_frequency_values_ok [1; 2; 3; 4; 5; 6] (1, 4) 10 3 2)
    as (lc & freqs & Hp); simpl; try lra.
  destruct (per_frequency_values_shape _ _ _ _ _ _ _ Hp) as [Har _].
  cbn [fst snd] in Har. rewrite arange_one_four_two in Har.
  injection Har as <-.
  rewrite Hp. cbn [bind fst snd].
  eexists. eexists. eexists. split; [reflexivity|].
  split; [reflexivity|]. simpl. lra.
Qed.

(** The progression reaches an upper bound that lies a whole number of
    steps above the lower one, and stops there. *)
Lemma frequency_sequence_aligned (low f_step : R) (k : nat) :
  0 < f_step ->
  exists freqs,
    arange low (low + INR k * f_step + f_step) f_step = Ok freqs
    /\ length freqs = S k
    /\ last freqs 0 = low + INR k * f_step.
Proof.
  intros Hstep. rewrite arange_aligned by exact Hstep.
  eexists. split; [reflexivity|]. split.
  - now rewrite length_map, length_seq.
  - rewrite seq_S, map_app. simpl map. now rewrite last_last.
Qed.

(** ** A signal of zeros *)

Lemma all_zero_firstn (k : nat) (l : list R) :
  all_zero l -> all_zero (firstn k l).
Proof.
  intros H. revert k. induction H as [|x l Hx _ IH]; intros k.
  - rewrite firstn_nil. constructor.
  - destruct k; simpl; [constructor|].
    constructor; [exact Hx|apply IH].
Qed.

Lemma all_zero_skipn (k : nat) (l : list R) :
  all_zero l -> all_zero (skipn k l).
Proof.
  intros H. revert k. induction H as [|x l Hx Hl IH]; intros k.
  - rewrite skipn_nil. constructor.
  - destruct k; simpl; [now constructor|apply IH].
Qed.

Lemma all_zero_rows (rows cols : nat) : forall l,
  all_zero l -> Forall all_zero (rows_of l rows cols).
Proof.
  induction rows as [|r IH]; intros l H; simpl; constructor.
  - now apply all_zero_firstn.
  - apply IH. now apply all_zero_skipn.
Qed.

Lemma all_zero_nth (l : list R) (m : nat) : all_zero l -> nth m l 0 = 0.
Proof.
  intros H. revert m. induction H as [|x l Hx _ IH]; intros m.
  - now destruct m.
  - destruct m; simpl; [exact Hx|apply IH].
Qed.

Lemma all_zero_times (chunk hw : list R) :
  all_zero chunk -> all_zero (times chunk hw).
Proof.
  intros H. revert hw. induction H as [|x l Hx _ IH]; intros hw.
  - constructor.
  - destruct hw as [|w hw]; [constructor|].
    unfold times. simpl. constructor.
    + rewrite Hx. ring.
    + apply IH.
Qed.

Lemma Csum_zeros (l : list C) : Forall (fun c => c = C0) l -> Csum l = C0.
Proof.
  induction 1 as [|c l Hc _ IH]; [reflexivity|].
  rewrite Csum_cons, Hc, IH. unfold Cadd, C0. simpl. f_equal; ring.
Qed.

(** The transform of zeros is zero at every bin. *)
Lemma fft_zero (x : list R) (bin : nat) : all_zero x -> nth bin (fft x) C0 = C0.
Proof.
  intros H. unfold fft.
  destruct (Nat.lt_ge_cases bin (length (seq 0 (length x)))) as [Hlt|Hge].
  - rewrite (nth_map_in _ _ _ _ 0%nat) by exact Hlt.
    apply Csum_zeros. apply Forall_forall. intros c Hc.
    apply in_map_iff in Hc. destruct Hc as (m & <- & _).
    rewrite (all_zero_nth x m H). unfold Cscale, C0. f_equal; ring.
  - apply nth_overflow. now rewrite length_map.
Qed.

(** All-zero chunks: the estimator returns [nan]. *)
Lemma estimator_zero_signal (sig : list R) (freq fs n_cycles : R) :
  0 < freq -> 0 < fs -> 0 < n_cycles -> all_zero sig ->
  _lagged_coherence_1freq sig freq fs n_cycles = Ok NaN.
Proof.
  intros Hf Hs Hc Hz.
  destruct (fft_coefs_of_ok sig freq fs n_cycles Hf Hs Hc)
    as (chunks & bin & Hch & _ & _ & Hco).
  destruct (window_length_ok n_cycles fs freq Hf Hs Hc) as [_ Hn].
  rewrite chunks_ok in Hch by exact Hn. injection Hch as Hch.
  assert (Hrows : Forall all_zero chunks).
  { rewrite <- Hch. apply all_zero_rows. now apply all_zero_firstn. }
  set (coefs := chunk_coefs chunks (hann (Zceil (n_cycles * fs / freq))) bin)
    in *.
  assert (Hcoefs : forall i, nth i coefs C0 = C0).
  { intros i. unfold coefs. rewrite chunk_coefs_nth. unfold tapered_coef.
    apply fft_zero. apply all_zero_times.
    destruct (Nat.lt_ge_cases i (length chunks)) as [Hlt|Hge].
    - apply (proj1 (Forall_forall _ _) Hrows). now apply nth_In.
    - rewrite nth_overflow by exact Hge. constructor. }
  assert (Hden : lcs_denom coefs = 0).
  { rewrite lcs_denom_by_index. unfold spec_denominator.
    replace (Rsum (map (fun i => Cabs (nth i coefs C0) ^ 2)
                       (seq 0 (length coefs - 1)))) with 0.
    - rewrite Rmult_0_l. apply sqrt_0.
    - symmetry. induction (seq 0 (length coefs - 1)) as [|i l IH];
        [reflexivity|].
      rewrite map_cons, Rsum_cons, IH, Hcoefs.
      replace (Cabs C0) with 0 by (symmetry; now apply Cabs_zero_iff).
      ring. }
  rewrite (estimator_value _ _ _ _ _ Hco).
  rewrite Hden, (lcs_denom_zero_num _ Hden).
  replace (Cabs C0) with 0 by (symmetry; now apply Cabs_zero_iff).
  now rewrite fdiv_zero_zero.
Qed.


(** * Further properties of the three functions *)

(** ** [_nonoverlapping_chunks] *)

Lemma rows_of_nth {A : Type} (d : A) (cols : nat) :
  forall (rows : nat) (l : list A) (i j : nat),
    (i < rows)%nat -> (j < cols)%nat ->
    nth j (nth i (rows_of l rows cols) []) d = nth (i * cols + j) l d.
Proof.
  induction rows as [|r IH]; intros l i j Hi Hj; [lia|].
  destruct i as [|i]; simpl.
  - rewrite nth_firstn.
    destruct (Nat.ltb_spec j cols); [reflexivity|lia].
  - rewrite IH by lia. rewrite nth_skipn. f_equal. lia.
Qed.

(** X1.  For a window of [n_samples >= 1] samples, sample [j] of chunk
    [i] is sample [i * n_samples + j] of the signal: the chunks are
    consecutive windows taken from the start, in order. *)
Theorem chunk_sample_index {A : Type} (d : A) (sig : list A) (n_samples : Z) :
  (1 <= n_samples)%Z ->
  exists chunks,
    _nonoverlapping_chunks sig n_samples = Ok chunks
    /\ forall i j,
         (i < length chunks)%nat -> (j < Z.to_nat n_samples)%nat ->
         nth j (nth i chunks []) d = nth (i * Z.to_nat n_samples + j) sig d.
Proof.
  intros Hn. eexists. split; [apply chunks_ok; exact Hn|].
  intros i j Hi Hj. rewrite rows_of_length in Hi.
  rewrite rows_of_nth by assumption.
  rewrite nth_firstn.
  set (k := Z.to_nat n_samples) in *. set (q := (length sig / k)%nat) in *.
  destruct (Nat.ltb_spec (i * k + j) (q * k)) as [_|Hge]; [reflexivity|].
  assert ((i + 1) * k <= q * k)%nat by (apply Nat.mul_le_mono_r; lia).
  lia.
Qed.

Lemma chunk_sample_index_witness :
  exists chunks,
    _nonoverlapping_chunks [10%nat; 11%nat; 12%nat; 13%nat; 14%nat] 2
    = Ok chunks
    /\ forall i j,
         (i < length chunks)%nat -> (j < Z.to_nat 2)%nat ->
         nth j (nth i chunks []) 0%nat
         = nth (i * Z.to_nat 2 + j)
               [10%nat; 11%nat; 12%nat; 13%nat; 14%nat] 0%nat.
Proof.
  apply (chunk_sample_index 0%nat
           [10%nat; 11%nat; 12%nat; 13%nat; 14%nat] 2). lia.
Defined.

Lemma rows_of_concat_rows {A : Type} (cols : nat) :
  forall rows : list (list A),
    Forall (fun c => length c = cols) rows ->
    rows_of (concat rows) (length rows) cols = rows.
Proof.
  induction 1 as [|c rows Hc _ IH]; [reflexivity|].
  simpl. rewrite firstn_app, skipn_app, Hc, Nat.sub_diag.
  rewrite <- Hc at 1. rewrite firstn_all, firstn_O, app_nil_r.
  rewrite <- Hc at 1. rewrite skipn_all, skipn_O. simpl.
  now rewrite IH.
Qed.

Lemma concat_rows_length {A : Type} (cols : nat) (rows : list (list A)) :
  Forall (fun c => length c = cols) rows ->
  length (concat rows) = (length rows * cols)%nat.
Proof.
  induction 1 as [|c rows Hc _ IH]; [reflexivity|].
  simpl. rewrite length_app, IH, Hc. reflexivity.
Qed.

(** Chunking the concatenation of windows of [n_samples >= 1] samples,
    followed by fewer than [n_samples] further samples, gives the windows
    back. *)
Lemma chunks_of_concat {A : Type} (rows : list (list A)) (tail : list A)
  (n_samples : Z) :
  (1 <= n_samples)%Z ->
  Forall (fun c => length c = Z.to_nat n_samples) rows ->
  (length tail < Z.to_nat n_samples)%nat ->
  _nonoverlapping_chunks (concat rows ++ tail) n_samples = Ok rows.
Proof.
  intros Hn Hrows Htail. rewrite chunks_ok by exact Hn.
  set (k := Z.to_nat n_samples) in *.
  assert (Hlen := concat_rows_length k rows Hrows).
  assert (Hq : (length (concat rows ++ tail) / k = length rows)%nat).
  { rewrite length_app, Hlen, Nat.add_comm, Nat.div_add by lia.
    rewrite Nat.div_small by exact Htail. reflexivity. }
  rewrite Hq, <- Hlen, firstn_app, Nat.sub_diag, firstn_all, firstn_O.
  rewrite app_nil_r. f_equal. now apply rows_of_concat_rows.
Qed.

(** X2.  Round trip: for windows that all hold [n_samples >= 1] samples,
    chunking their concatenation returns exactly these windows, also
    when fewer than [n_samples] further samples follow. *)
Theorem chunks_round_trip {A : Type} (rows : list (list A)) (tail : list A)
  (n_samples : Z) :
  (1 <= n_samples)%Z ->
  Forall (fun c => length c = Z.to_nat n_samples) rows ->
  (length tail < Z.to_nat n_samples)%nat ->
  _nonoverlapping_chunks (concat rows ++ tail) n_samples = Ok rows
  /\ _nonoverlapping_chunks (concat rows) n_samples = Ok rows.
Proof.
  intros Hn Hrows Htail. split.
  - now apply chunks_of_concat.
  - rewrite <- (app_nil_r (concat rows)).
    apply chunks_of_concat; [exact Hn|exact Hrows|simpl; lia].
Qed.

Lemma chunks_round_trip_witness :
  _nonoverlapping_chunks
    (concat [[1%nat; 2%nat]; [3%nat; 4%nat]] ++ [5%nat]) 2
  = Ok [[1%nat; 2%nat]; [3%nat; 4%nat]]
  /\ _nonoverlapping_chunks (concat [[1%nat; 2%nat]; [3%nat; 4%nat]]) 2
     = Ok [[1%nat; 2%nat]; [3%nat; 4%nat]].
Proof.
  apply (chunks_round_trip [[1%nat; 2%nat]; [3%nat; 4%nat]] [5%nat] 2).
  - lia.
  - repeat constructor.
  - simpl. lia.
Defined.

(** ** [_lagged_coherence_1freq] *)




Lemma window_length_nonpositive (n_cycles fs freq : R) (n : Z) :
  freq < 0 -> 0 < fs -> 0 < n_cycles ->
  window_length n_cycles fs freq = Ok n -> (n <= 0)%Z.
Proof.
  intros Hf Hs Hc. unfold window_length.
  destruct (Req_dec_T freq 0) as [E|_]; [lra|].
  intros H. injection H as <-.
  set (q := n_cycles * fs / freq).
  assert (Hq : q < 0).
  { unfold q, Rdiv. assert (/ freq < 0) by now apply Rinv_lt_0_compat.
    assert (0 < n_cycles * fs) by nra. nra. }
  destruct (Zceil_bound q) as [Hlo _].
  assert (H1 : IZR (Zceil q) < 1) by lra.
  apply lt_IZR in H1. lia.
Qed.

Lemma chunks_raise {A : Type} (sig : list A) (n : Z) :
  (n <= 0)%Z -> exists e, _nonoverlapping_chunks sig n = Raise e.
Proof.
  intros Hn. unfold _nonoverlapping_chunks.
  destruct (Z.eqb_spec n 0); [eexists; reflexivity|].
  destruct (Z.ltb_spec n 0); [eexists; reflexivity|lia].
Qed.

(** The estimator raises on a frequency that is zero or negative. *)
Lemma estimator_raises (sig : list R) (freq fs n_cycles : R) :
  freq <= 0 -> 0 < fs -> 0 < n_cycles ->
  exists e, _lagged_coherence_1freq sig freq fs n_cycles = Raise e.
Proof.
  intros Hf Hs Hc. unfold _lagged_coherence_1freq, fft_coefs_of.
  destruct (window_length n_cycles fs freq) as [n|e] eqn:Hw.
  - assert (Hneg : freq < 0).
    { destruct (Req_dec_T freq 0) as [E|E]; [|lra].
      unfold window_length in Hw. destruct (Req_dec_T freq 0); [|lra].
      destruct (Req_dec_T (n_cycles * fs) 0); discriminate. }
    assert (Hn := window_length_nonpositive _ _ _ _ Hneg Hs Hc Hw).
    destruct (chunks_raise sig n Hn) as [e He].
    exists e. cbn [bind]. now rewrite He.
  - exists e. reflexivity.
Qed.

(** X4.  For a positive sampling rate and number of cycles, a frequency
    that is zero or negative makes the estimator raise an exception: it
    returns no value, not even [nan]. *)
Theorem estimator_rejects_nonpositive_frequency
  (sig : list R) (freq fs n_cycles : R) :
  freq <= 0 -> 0 < fs -> 0 < n_cycles ->
  (exists e, _lagged_coherence_1freq sig freq fs n_cycles = Raise e)
  /\ forall v, _lagged_coherence_1freq sig freq fs n_cycles <> Ok v.
Proof.
  intros Hf Hs Hc.
  destruct (estimator_raises sig freq fs n_cycles Hf Hs Hc) as [e He].
  split; [now exists e|]. intros v. rewrite He. discriminate.
Qed.

Lemma estimator_rejects_nonpositive_frequency_witness :
  (exists e, _lagged_coherence_1freq [1; 2; 3] 0 10 3 = Raise e)
  /\ forall v, _lagged_coherence_1freq [1; 2; 3] 0 10 3 <> Ok v.
Proof.
  apply (estimator_rejects_nonpositive_frequency [1; 2; 3] 0 10 3); lra.
Defined.

(** What the estimator returns on positive parameters: [nan] when the
    denominator is zero, and otherwise a number of [0, 1]. *)
Lemma estimator_cases (sig : list R) (freq fs n_cycles : R) :
  0 < freq -> 0 < fs -> 0 < n_cycles ->
  exists coefs,
    fft_coefs_of sig freq fs n_cycles = Ok coefs
    /\ Z.of_nat (length coefs)
       = (Z.of_nat (length sig) / Zceil (n_cycles * fs / freq))%Z
    /\ ((lcs_denom coefs = 0
         /\ _lagged_coherence_1freq sig freq fs n_cycles = Ok NaN)
        \/ (lcs_denom coefs <> 0
            /\ (2 <= length coefs)%nat
            /\ exists v,
                 _lagged_coherence_1freq sig freq fs n_cycles = Ok (Fin v)
                 /\ 0 <= v <= 1)).
Proof.
  intros Hf Hs Hc.
  destruct (fft_coefs_of_ok sig freq fs n_cycles Hf Hs Hc)
    as (chunks & bin & _ & _ & Hlen & Hco).
  eexists. split; [exact Hco|]. split.
  { rewrite chunk_coefs_length. exact Hlen. }
  set (coefs := chunk_coefs chunks (hann (Zceil (n_cycles * fs / freq))) bin)
    in *.
  rewrite (estimator_value _ _ _ _ _ Hco).
  destruct (Req_dec_T (lcs_denom coefs) 0) as [Hz|Hnz].
  - left. split; [exact Hz|].
    rewrite Hz, (lcs_denom_zero_num _ Hz).
    replace (Cabs C0) with 0 by (symmetry; now apply Cabs_zero_iff).
    now rewrite fdiv_zero_zero.
  - right. split; [exact Hnz|]. split.
    + destruct (Nat.lt_ge_cases (length coefs) 2) as [Hlt|Hge];
        [|exact Hge].
      elim Hnz. now apply lcs_few_chunks.
    + exists (Cabs (lcs_num coefs) / lcs_denom coefs).
      split; [now rewrite fdiv_nonzero|].
      assert (Hpos : 0 < lcs_denom coefs).
      { assert (H := lcs_denom_nonneg coefs). lra. }
      assert (Hn := Cabs_nonneg (lcs_num coefs)).
      assert (Hle := lcs_num_le_denom coefs).
      split.
      * unfold Rdiv. apply Rmult_le_pos; [exact Hn|].
        left. now apply Rinv_0_lt_compat.
      * apply (Rmult_le_reg_r (lcs_denom coefs)); [exact Hpos|].
        unfold Rdiv. rewrite Rmult_assoc, Rinv_l by lra. lra.
Qed.





(** X7.  The window grows as the frequency falls: for positive
    parameters and [freq1 <= freq2], the window computed for [freq2]
    holds at least one sample and at most as many as the one for
    [freq1]. *)
Theorem window_length_antitone (n_cycles fs freq1 freq2 : R) :
  0 < freq1 -> freq1 <= freq2 -> 0 < fs -> 0 < n_cycles ->
  exists n1 n2,
    window_length n_cycles fs freq1 = Ok n1
    /\ window_length n_cycles fs freq2 = Ok n2
    /\ (1 <= n2 <= n1)%Z.
Proof.
  intros H1 H12 Hs Hc.
  destruct (window_length_ok n_cycles fs freq1 H1 Hs Hc) as [Hw1 _].
  destruct (window_length_ok n_cycles fs freq2 ltac:(lra) Hs Hc)
    as [Hw2 Hn2].
  eexists. eexists. split; [exact Hw1|]. split; [exact Hw2|].
  split; [exact Hn2|]. apply Zceil_le.
  unfold Rdiv. apply Rmult_le_compat_l; [nra|].
  apply Rinv_le_contravar; assumption.
Qed.

Lemma window_length_antitone_witness :
  exists n1 n2,
    window_length 3 1000 8 = Ok n1
    /\ window_length 3 1000 12 = Ok n2
    /\ (1 <= n2 <= n1)%Z.
Proof.
  apply (window_length_antitone 3 1000 8 12); lra.
Defined.

(** *** The estimate does not depend on the unit of the signal *)


















(** ** The selected bin *)

(** The index [fft_bin] returns is in the grid and no bin is closer. *)
Lemma fft_bin_min (n_samps : Z) (fs freq : R) :
  (1 <= n_samps)%Z -> fs <> 0 ->
  exists idx,
    fft_bin n_samps fs freq = Ok idx
    /\ (idx < Z.to_nat n_samps)%nat
    /\ forall j, (j < Z.to_nat n_samps)%nat ->
         Rabs (IZR (bin_number n_samps idx) * fs / IZR n_samps - freq)
         <= Rabs (IZR (bin_number n_samps j) * fs / IZR n_samps - freq).
Proof.
  intros Hn Hfs.
  set (grid := fftfreq n_samps (1 / fs)).
  assert (Hlen : length grid = Z.to_nat n_samps)
    by (apply fftfreq_length; exact Hn).
  set (dist := map (fun f => Rabs (f - freq)) grid).
  assert (Hne : dist <> []).
  { intros E. assert (H : length dist = 0%nat) by now rewrite E.
    unfold dist in H. rewrite length_map in H. lia. }
  destruct (argmin_first_min dist Hne) as (idx & Hidx & Hlt & Hmin & _).
  assert (Hdl : length dist = Z.to_nat n_samps)
    by (unfold dist; now rewrite length_map).
  assert (Hnth : forall j, (j < Z.to_nat n_samps)%nat ->
            nth j dist 0
            = Rabs (IZR (bin_number n_samps j) * fs / IZR n_samps - freq)).
  { intros j Hj. unfold dist.
    rewrite (nth_map_in (fun f => Rabs (f - freq)) grid j 0 0) by lia.
    unfold grid. rewrite fftfreq_nth by assumption.
    assert (IZR n_samps <> 0) by (apply not_0_IZR; lia).
    f_equal. field. split; assumption. }
  exists idx. split.
  - unfold fft_bin. destruct (Req_dec_T fs 0) as [E|_]; [contradiction|].
    exact Hidx.
  - split; [lia|]. intros j Hj. rewrite <- !Hnth by lia. apply Hmin. lia.
Qed.

(** X10.  For a positive target frequency and sampling rate the selected
    bin is never one of the negative-frequency bins of the grid: its
    index is at most [(n_samps - 1) // 2]. *)
Theorem fft_bin_nonnegative (n_samps : Z) (fs freq : R) :
  (1 <= n_samps)%Z -> 0 < fs -> 0 < freq ->
  exists idx,
    fft_bin n_samps fs freq = Ok idx
    /\ (Z.of_nat idx <= (n_samps - 1) / 2)%Z.
Proof.
  intros Hn Hfs Hf.
  destruct (fft_bin_min n_samps fs freq Hn ltac:(lra))
    as (idx & Hidx & Hlt & Hmin).
  exists idx. split; [exact Hidx|].
  destruct (Z.leb_spec (Z.of_nat idx) ((n_samps - 1) / 2)) as [Hle|Hgt];
    [exact Hle|].
  exfalso. specialize (Hmin 0%nat ltac:(lia)).
  unfold bin_number in Hmin.
  destruct (Z.leb_spec (Z.of_nat idx) ((n_samps - 1) / 2)); [lia|].
  destruct (Z.leb_spec (Z.of_nat 0) ((n_samps - 1) / 2)) as [_|H0].
  2:{ assert (0 <= (n_samps - 1) / 2)%Z by (apply Z.div_pos; lia).
      simpl in H0. lia. }
  assert (HnR : 0 < IZR n_samps) by (apply IZR_lt; lia).
  assert (Hneg : IZR (Z.of_nat idx - n_samps) * fs / IZR n_samps < 0).
  { assert (Hk : IZR (Z.of_nat idx - n_samps) < 0) by (apply IZR_lt; lia).
    unfold Rdiv. assert (0 < / IZR n_samps) by now apply Rinv_0_lt_compat.
    assert (IZR (Z.of_nat idx - n_samps) * fs < 0) by nra. nra. }
  replace (IZR (Z.of_nat 0) * fs / IZR n_samps - freq) with (- freq)
    in Hmin by (simpl; field; lra).
  rewrite Rabs_Ropp, (Rabs_pos_eq freq) in Hmin by lra.
  rewrite Rabs_left in Hmin by lra. lra.
Qed.

Lemma fft_bin_nonnegative_witness :
  exists idx, fft_bin 6 1000 400 = Ok idx /\ (Z.of_nat idx <= (6 - 1) / 2)%Z.
Proof.
  apply (fft_bin_nonnegative 6 1000 400); [lia|lra|lra].
Defined.

(** X11.  For a whole number [c >= 1] of cycles and a target frequency
    below half the sampling rate, the bin the estimator selects in its
    window of [ceil(c * fs / freq)] samples is bin [c]: the window holds
    [c] cycles of the selected frequency. *)
Theorem fft_bin_is_n_cycles (c : nat) (fs freq : R) :
  (1 <= c)%nat -> 0 < freq -> 2 * freq < fs ->
  fft_bin (Zceil (INR c * fs / freq)) fs freq = Ok c.
Proof.
  intros Hc Hf Hny.
  set (n := Zceil (INR c * fs / freq)).
  assert (Hfs : 0 < fs) by lra.
  assert (HcR : 1 <= INR c).
  { replace 1 with (INR 1) by reflexivity. now apply le_INR. }
  assert (Hx : IZR n - 1 < INR c * fs / freq <= IZR n)
    by apply Zceil_bound.
  assert (Hxf : INR c * fs / freq * freq = INR c * fs) by (field; lra).
  assert (Hlo : (IZR n - 1) * freq < INR c * fs) by nra.
  assert (Hhi : INR c * fs <= IZR n * freq) by nra.
  (* the window holds more than [2 c] samples *)
  assert (Hn2 : (2 * Z.of_nat c + 1 <= n)%Z).
  { assert (H : IZR (2 * Z.of_nat c) < IZR n).
    { rewrite mult_IZR, <- INR_IZR_INZ. nra. }
    apply lt_IZR in H. lia. }
  assert (Hn : (1 <= n)%Z) by lia.
  assert (HN : 0 < IZR n) by (apply IZR_lt; lia).
  destruct (fft_bin_min n fs freq Hn ltac:(lra))
    as (idx & Hidx & Hlt & Hmin).
  rewrite Hidx. f_equal.
  set (D := fs / IZR n).
  assert (HD : 0 < D) by (unfold D; now apply Rdiv_lt_0_compat).
  assert (HDN : D * IZR n = fs) by (unfold D; field; lra).
  assert (Hc1 : INR c * D <= freq).
  { apply (Rmult_le_reg_r (IZR n)); [exact HN|]. nra. }
  assert (Hc2 : freq - INR c * D < D / 2).
  { apply (Rmult_lt_reg_r (IZR n)); [exact HN|]. nra. }
  assert (Hbinc : bin_number n c = Z.of_nat c).
  { unfold bin_number.
    destruct (Z.leb_spec (Z.of_nat c) ((n - 1) / 2)) as [_|H];
      [reflexivity|].
    assert (Z.of_nat c <= (n - 1) / 2)%Z
      by (apply Z.div_le_lower_bound; lia).
    lia. }
  specialize (Hmin c ltac:(lia)).
  rewrite Hbinc, <- INR_IZR_INZ in Hmin.
  replace (INR c * fs / IZR n - freq) with (- (freq - INR c * D)) in Hmin
    by (unfold D; field; lra).
  rewrite Rabs_Ropp, (Rabs_pos_eq (freq - INR c * D)) in Hmin by lra.
  set (k := bin_number n idx) in *.
  replace (IZR k * fs / IZR n - freq) with (IZR k * D - freq) in Hmin
    by (unfold D; field; lra).
  assert (Hk : k = Z.of_nat c).
  { destruct (Z.lt_trichotomy k (Z.of_nat c)) as [Hl|[He|Hg]];
      [|exact He|].
    - exfalso.
      assert (H : IZR k <= INR c - 1).
      { rewrite INR_IZR_INZ, <- minus_IZR. apply IZR_le. lia. }
      assert (H' : IZR k * D - freq <= - D) by nra.
      rewrite Rabs_left in Hmin by lra. lra.
    - exfalso.
      assert (H : INR c + 1 <= IZR k).
      { rewrite INR_IZR_INZ, <- plus_IZR. apply IZR_le. lia. }
      assert (H' : D / 2 < IZR k * D - freq) by nra.
      rewrite Rabs_pos_eq in Hmin by lra. lra. }
  unfold k, bin_number in Hk.
  destruct (Z.leb_spec (Z.of_nat idx) ((n - 1) / 2)); lia.
Qed.

Lemma fft_bin_is_n_cycles_witness :
  fft_bin (Zceil (INR 3 * 1000 / 7)) 1000 7 = Ok 3%nat.
Proof.
  apply (fft_bin_is_n_cycles 3 1000 7); [lia|lra|lra].
Defined.

(** ** [lagged_coherence] *)

Lemma spectrum_run (sig : list R) (f_range : R * R) (fs n_cycles f_step : R)
  (verbose : bool) (out out' : stdout) (lc : list npfloat) (freqs : list R) :
  lagged_coherence sig f_range fs n_cycles f_step true verbose out
  = Ok (Spectrum lc freqs, out') ->
  per_frequency_values sig f_range fs n_cycles f_step = Ok (lc, freqs).
Proof.
  rewrite lagged_coherence_unfold.
  destruct (per_frequency_values sig f_range fs n_cycles f_step)
    as [[lc' freqs']|e]; [|discriminate].
  cbn [bind fst snd]. intros H. now injection H as <- <- _.
Qed.

Lemma Zceil_int_quotient (p s : Z) :
  (0 < s)%Z -> Zceil (IZR p / IZR s) = ((p + s - 1) / s)%Z.
Proof.
  intros Hs. apply Zceil_eq.
  set (q := ((p + s - 1) / s)%Z).
  assert (Hdm := Z.div_mod (p + s - 1) s ltac:(lia)). fold q in Hdm.
  assert (Hr := Z.mod_pos_bound (p + s - 1) s Hs).
  assert (HsR : 0 < IZR s) by (apply IZR_lt; lia).
  assert (Hup : IZR p <= IZR q * IZR s).
  { rewrite <- mult_IZR. apply IZR_le. nia. }
  assert (Hlo : (IZR q - 1) * IZR s < IZR p).
  { rewrite <- minus_IZR, <- mult_IZR. apply IZR_lt. nia. }
  set (x := IZR p / IZR s).
  assert (Hx : x * IZR s = IZR p) by (unfold x; field; lra).
  split; nra.
Qed.

(** [np.arange] on integers. *)
Lemma arange_integers (a b s : Z) :
  (0 < s)%Z ->
  arange (IZR a) (IZR b + IZR s) (IZR s) = Ok (integer_sweep a b s).
Proof.
  intros Hs.
  assert (HsR : 0 < IZR s) by (apply IZR_lt; lia).
  rewrite arange_values by lra. unfold integer_sweep, sweep_steps. f_equal.
  replace ((IZR b + IZR s - IZR a) / IZR s) with (IZR (b - a + s) / IZR s)
    by (rewrite plus_IZR, minus_IZR; unfold Rdiv; ring).
  rewrite Zceil_int_quotient by exact Hs.
  replace (b - a + s + s - 1)%Z with (b - a + s - 1 + 1 * s)%Z by lia.
  rewrite Z.div_add by lia.
  apply map_ext. intros i.
  now rewrite plus_IZR, mult_IZR, <- INR_IZR_INZ.
Qed.

Lemma sweep_steps_bounds (a b s : Z) :
  (0 < s)%Z -> (a <= b)%Z ->
  (0 <= sweep_steps a b s)%Z
  /\ (b <= a + sweep_steps a b s * s < b + s)%Z.
Proof.
  intros Hs Hab. unfold sweep_steps.
  assert (Hdm := Z.div_mod (b - a + s - 1) s ltac:(lia)).
  assert (Hr := Z.mod_pos_bound (b - a + s - 1) s Hs).
  assert (H0 : (0 <= (b - a + s - 1) / s)%Z) by (apply Z.div_pos; lia).
  split; [exact H0|]. nia.
Qed.

(** X12.  For integer bounds [0 < low <= high], an integer step
    [f_step > 0] and a positive sampling rate and number of cycles, the
    invocation with [return_spectrum=True] returns, with one value per
    frequency, the frequencies [low, low + f_step, ...,
    low + m f_step] where [m = ceil((high - low) / f_step)]; the last
    one, [L], satisfies [high <= L < high + f_step]: the sweep reaches
    the upper bound and goes beyond it when [high - low] is not a
    multiple of the step. *)
Theorem integer_sweep_frequencies (sig : list R) (a b s : Z)
  (fs n_cycles : R) (verbose : bool) (out : stdout) :
  (0 < a)%Z -> (a <= b)%Z -> (0 < s)%Z -> 0 < fs -> 0 < n_cycles ->
  exists lc out',
    lagged_coherence sig (IZR a, IZR b) fs n_cycles (IZR s) true verbose out
    = Ok (Spectrum lc (integer_sweep a b s), out')
    /\ length lc = Z.to_nat (sweep_steps a b s + 1)
    /\ last (integer_sweep a b s) 0 = IZR (a + sweep_steps a b s * s)
    /\ (b <= a + sweep_steps a b s * s < b + s)%Z.
Proof.
  intros Ha Hab Hs Hfs Hc.
  assert (HaR : 0 < IZR a) by (apply IZR_lt; lia).
  assert (HsR : 0 < IZR s) by (apply IZR_lt; lia).
  destruct (per_frequency_values_ok sig (IZR a, IZR b) fs n_cycles (IZR s)
              HaR HsR Hfs Hc) as (lc & freqs & Hp).
  destruct (per_frequency_values_shape _ _ _ _ _ _ _ Hp) as [Har Hlen].
  cbn [fst snd] in Har. rewrite arange_integers in Har by exact Hs.
  injection Har as <-.
  destruct (sweep_steps_bounds a b s Hs Hab) as [Hm Hb].
  exists lc. eexists. rewrite lagged_coherence_unfold, Hp. cbn [bind fst snd].
  split; [reflexivity|]. split.
  - rewrite Hlen. unfold integer_sweep. now rewrite length_map, length_seq.
  - split; [|exact Hb].
    unfold integer_sweep.
    replace (Z.to_nat (sweep_steps a b s + 1))
      with (S (Z.to_nat (sweep_steps a b s))) by lia.
    rewrite seq_S, map_app. cbn [map Nat.add]. rewrite last_last.
    f_equal. lia.
Qed.

Lemma integer_sweep_frequencies_witness :
  exists lc out',
    lagged_coherence [1; 2; 3; 4; 5; 6] (IZR 1, IZR 4) 10 3 (IZR 2)
                     true true []
    = Ok (Spectrum lc (integer_sweep 1 4 2), out')
    /\ length lc = Z.to_nat (sweep_steps 1 4 2 + 1)
    /\ last (integer_sweep 1 4 2) 0 = IZR (1 + sweep_steps 1 4 2 * 2)
    /\ (4 <= 1 + sweep_steps 1 4 2 * 2 < 4 + 2)%Z.
Proof.
  apply (integer_sweep_frequencies [1; 2; 3; 4; 5; 6] 1 4 2 10 3 true []);
    try lia; lra.
Defined.

(** The sweep of the range [[1, 4]] in steps of 2 ends at 5. *)
Example integer_sweep_one_four_two :
  sweep_steps 1 4 2 = 2%Z /\ (1 + sweep_steps 1 4 2 * 2 = 5)%Z.
Proof. split; reflexivity. Qed.

(** X13.  With a positive step, sampling rate and number of cycles, a
    range that is not empty and whose lower bound is zero or negative
    makes every invocation raise: nothing is returned and nothing is
    printed, whatever [return_spectrum] and [verbose] are. *)
Theorem lagged_coherence_rejects_nonpositive_low (sig : list R)
  (f_range : R * R) (fs n_cycles f_step : R) :
  0 < f_step -> fst f_range <= 0 ->
  fst f_range < snd f_range + f_step ->
  0 < fs -> 0 < n_cycles ->
  exists e,
    forall (return_spectrum verbose : bool) (out : stdout),
      lagged_coherence sig f_range fs n_cycles f_step return_spectrum
                       verbose out
      = Raise e.
Proof.
  intros Hstep Hlow Hne Hs Hc.
  assert (Har := arange_values (fst f_range) (snd f_range + f_step) f_step
                   ltac:(lra)).
  set (q := (snd f_range + f_step - fst f_range) / f_step) in *.
  assert (Hq : 0 < q) by (unfold q; apply Rdiv_lt_0_compat; lra).
  assert (Hpos := Zceil_pos q Hq).
  destruct (Z.to_nat (Zceil q)) as [|m] eqn:Hm; [lia|].
  cbn [seq map] in Har.
  set (freq0 := fst f_range + INR 0 * f_step) in *.
  assert (Hf0 : freq0 <= 0) by (unfold freq0; simpl; lra).
  destruct (estimator_raises sig freq0 fs n_cycles Hf0 Hs Hc) as [e He].
  exists e. intros return_spectrum verbose out.
  rewrite lagged_coherence_unfold. unfold per_frequency_values.
  rewrite Har. cbn [bind estimate_each]. now rewrite He.
Qed.

Lemma lagged_coherence_rejects_nonpositive_low_witness :
  exists e,
    forall (return_spectrum verbose : bool) (out : stdout),
      lagged_coherence [1; 2; 3] (0, 10) 100 3 1 return_spectrum verbose out
      = Raise e.
Proof.
  apply (lagged_coherence_rejects_nonpositive_low [1; 2; 3] (0, 10) 100 3 1);
    simpl; lra.
Defined.

Lemma estimate_each_nth (sig : list R) (fs n_cycles : R) :
  forall (freqs : list R) (lc : list npfloat) (i : nat),
    estimate_each sig fs n_cycles freqs = Ok lc ->
    (i < length freqs)%nat ->
    _lagged_coherence_1freq sig (nth i freqs 0) fs n_cycles
    = Ok (nth i lc NaN).
Proof.
  induction freqs as [|freq freqs IH]; intros lc i H Hi; [simpl in Hi; lia|].
  simpl in H.
  destruct (_lagged_coherence_1freq sig freq fs n_cycles) as [v|e] eqn:Hv;
    [|discriminate].
  cbn [bind] in H.
  destruct (estimate_each sig fs n_cycles freqs) as [vs|e] eqn:Hvs;
    [|discriminate].
  cbn [bind] in H. injection H as <-.
  destruct i as [|i]; [exact Hv|].
  simpl. apply IH; [reflexivity|simpl in Hi; lia].
Qed.

(** X14.  In a returned spectrum the value at position [i] is what the
    single-frequency estimator returns for the frequency at position
    [i]: values and frequencies correspond position by position. *)
Theorem spectrum_values_by_frequency (sig : list R) (f_range : R * R)
  (fs n_cycles f_step : R) (verbose : bool) (out out' : stdout)
  (lc : list npfloat) (freqs : list R) :
  lagged_coherence sig f_range fs n_cycles f_step true verbose out
  = Ok (Spectrum lc freqs, out') ->
  forall i, (i < length freqs)%nat ->
    _lagged_coherence_1freq sig (nth i freqs 0) fs n_cycles
    = Ok (nth i lc NaN).
Proof.
  intros Hrun i Hi. apply spectrum_run in Hrun.
  unfold per_frequency_values in Hrun.
  destruct (arange (fst f_range) (snd f_range + f_step) f_step)
    as [fr|e]; [|discriminate].
  cbn [bind] in Hrun.
  destruct (estimate_each sig fs n_cycles fr) as [vs|e] eqn:Hvs;
    [|discriminate].
  cbn [bind] in Hrun. injection Hrun as <- <-.
  now apply estimate_each_nth.
Qed.

Lemma spectrum_values_by_frequency_witness :
  _lagged_coherence_1freq [1] (nth 0 [1] 0) 1 1 = Ok (nth 0 [NaN] NaN).
Proof.
  apply (spectrum_values_by_frequency [1] (1, 1) 1 1 1 false [] []
           [NaN] [1]).
  - apply (lagged_coherence_one_sample true false []).
  - simpl. lia.
Defined.

(** *** The mean over the range *)

Lemma estimate_each_values (sig : list R) (fs n_cycles : R) :
  0 < fs -> 0 < n_cycles ->
  forall (freqs : list R) (lc : list npfloat),
    Forall (fun f => 0 < f) freqs ->
    estimate_each sig fs n_cycles freqs = Ok lc ->
    Forall nan_or_unit lc.
Proof.
  intros Hs Hc. induction freqs as [|freq freqs IH]; intros lc Hpos H.
  - simpl in H. injection H as <-. constructor.
  - inversion Hpos as [|? ? Hf Hrest]; subst. simpl in H.
    destruct (estimator_cases sig freq fs n_cycles Hf Hs Hc)
      as (coefs & _ & _ & Hcase).
    destruct (_lagged_coherence_1freq sig freq fs n_cycles) as [v|e];
      [|discriminate].
    cbn [bind] in H.
    destruct (estimate_each sig fs n_cycles freqs) as [vs|e] eqn:Hvs;
      [|discriminate].
    cbn [bind] in H. injection H as <-. constructor.
    + destruct Hcase as [[_ Hv]|(_ & _ & u & Hv & Hu)];
        injection Hv as ->; [now left|right; now exists u].
    + now apply IH.
Qed.

Lemma sum_of_unit_values (l : list npfloat) :
  Forall nan_or_unit l -> ~ In NaN l ->
  exists s,
    fold_right np_add (Fin 0) l = Fin s /\ 0 <= s <= INR (length l).
Proof.
  induction 1 as [|x l Hx _ IH]; intros Hnan.
  - exists 0. simpl. split; [reflexivity|lra].
  - destruct IH as (s & Hs & Hb); [intros H; apply Hnan; now right|].
    destruct Hx as [->|(v & -> & Hv)]; [elim Hnan; now left|].
    exists (v + s). cbn [fold_right length]. rewrite Hs, S_INR.
    split; [reflexivity|lra].
Qed.

(** The mean of values of [0, 1], at least one and none of them [nan],
    is a number of [0, 1]; otherwise it is [nan]. *)
Lemma mean_of_unit_values (l : list npfloat) :
  Forall nan_or_unit l ->
  (l = [] \/ In NaN l -> np_mean l = NaN)
  /\ (l <> [] -> ~ In NaN l ->
      exists v, np_mean l = Fin v /\ 0 <= v <= 1).
Proof.
  intros Hl. rewrite np_mean_arithmetic. split.
  - intros [-> |Hnan]; [|now apply arithmetic_mean_nan].
    unfold arithmetic_mean. simpl. apply fdiv_zero_zero.
  - intros Hne Hnan.
    destruct (sum_of_unit_values l Hl Hnan) as (s & Hs & Hb).
    assert (Hlen : 1 <= INR (length l)).
    { destruct l as [|x l]; [congruence|].
      cbn [length]. rewrite S_INR. assert (H := pos_INR (length l)). lra. }
    unfold arithmetic_mean. rewrite Hs. cbn [np_div_count].
    rewrite fdiv_nonzero by lra.
    exists (s / INR (length l)). split; [reflexivity|].
    assert (Hinv : 0 < / INR (length l)) by (apply Rinv_0_lt_compat; lra).
    unfold Rdiv. split; [nra|].
    apply (Rmult_le_reg_r (INR (length l))); [lra|].
    rewrite Rmult_assoc, Rinv_l by lra. lra.
Qed.

Lemma nan_member_dec (l : list npfloat) : In NaN l \/ ~ In NaN l.
Proof.
  induction l as [|x l [IH|IH]].
  - right. intros [].
  - left. now right.
  - destruct x as [v| | |].
    + right. intros [H|H]; [discriminate|contradiction].
    + right. intros [H|H]; [discriminate|contradiction].
    + right. intros [H|H]; [discriminate|contradiction].
    + left. now left.
Qed.

(** X15.  On a positive lower bound, step, sampling rate and number of
    cycles, the invocation with [return_spectrum=False] returns the mean
    [m] of the values [lc] that the invocation with
    [return_spectrum=True] returns, and [m] is [nan] exactly when the
    frequency sequence is empty or some value of [lc] is [nan]: a mean
    that is a number says that every frequency was estimated. *)
Theorem mean_nan_iff (sig : list R) (f_range : R * R)
  (fs n_cycles f_step : R) (verbose : bool) (out : stdout) :
  0 < fst f_range -> 0 < f_step -> 0 < fs -> 0 < n_cycles ->
  exists lc freqs m out',
    lagged_coherence sig f_range fs n_cycles f_step true verbose out
    = Ok (Spectrum lc freqs, out')
    /\ lagged_coherence sig f_range fs n_cycles f_step false verbose out
       = Ok (MeanValue m, out')
    /\ (m = NaN <-> lc = [] \/ In NaN lc).
Proof.
  intros Hlow Hstep Hs Hc.
  destruct (per_frequency_values_ok sig f_range fs n_cycles f_step
              Hlow Hstep Hs Hc) as (lc & freqs & Hp).
  exists lc, freqs, (np_mean lc), (out ++ notices lc verbose).
  rewrite !lagged_coherence_unfold, Hp. cbn [bind fst snd].
  split; [reflexivity|]. split; [reflexivity|].
  assert (Hvals : Forall nan_or_unit lc).
  { unfold per_frequency_values in Hp.
    destruct (arange (fst f_range) (snd f_range + f_step) f_step)
      as [fr|e] eqn:Har; [|discriminate].
    cbn [bind] in Hp.
    destruct (estimate_each sig fs n_cycles fr) as [vs|e] eqn:Hvs;
      [|discriminate].
    cbn [bind] in Hp. injection Hp as <- <-.
    apply (estimate_each_values sig fs n_cycles Hs Hc fr); [|exact Hvs].
    eapply Forall_impl; [|exact (arange_from_start _ _ _ _ Hstep Har)].
    intros f Hf. simpl in Hf. lra. }
  destruct (mean_of_unit_values lc Hvals) as [Hnan Hnum].
  split; [|exact Hnan].
  intros Hm. destruct lc as [|x lc]; [now left|]. right.
  destruct (nan_member_dec (x :: lc)) as [Hin|Hnot]; [exact Hin|].
  destruct (Hnum ltac:(discriminate) Hnot) as (v & Hv & _).
  rewrite Hv in Hm. discriminate.
Qed.

Lemma mean_nan_iff_witness :
  exists lc freqs m out',
    lagged_coherence [1; 1; 1; 1] (1, 2) 1 1 1 true true []
    = Ok (Spectrum lc freqs, out')
    /\ lagged_coherence [1; 1; 1; 1] (1, 2) 1 1 1 false true []
       = Ok (MeanValue m, out')
    /\ (m = NaN <-> lc = [] \/ In NaN lc).
Proof.
  apply (mean_nan_iff [1; 1; 1; 1] (1, 2) 1 1 1 true []); simpl; lra.
Defined.

(** *** A range of one frequency *)

Lemma arange_single (f f_step : R) :
  0 < f_step -> arange f (f + f_step) f_step = Ok [f].
Proof.
  intros Hstep. rewrite arange_values by lra.
  replace (Zceil ((f + f_step - f) / f_step)) with 1%Z.
  - simpl. do 2 f_equal. ring.
  - symmetry. apply Zceil_eq.
    replace ((f + f_step - f) / f_step) with 1 by (field; lra).
    simpl. lra.
Qed.

Lemma np_mean_single (x : npfloat) : np_mean [x] = x.
Proof.
  unfold np_mean, np_sum. cbn [fold_left length].
  destruct x as [v| | |]; try reflexivity.
  cbn [np_add np_div_count]. rewrite fdiv_nonzero by (simpl; lra).
  f_equal. simpl. field.
Qed.

(** In exact arithmetic a range [[f, f]] generates the frequency [f]
    alone. *)
Lemma single_frequency_exact (sig : list R) (f fs n_cycles f_step : R)
  (verbose : bool) (out : stdout) :
  0 < f_step ->
  lagged_coherence sig (f, f) fs n_cycles f_step false verbose out
  = (v <- _lagged_coherence_1freq sig f fs n_cycles ;;
     Ok (MeanValue v,
         out ++ (if isnan v && verbose then [lc_warning] else []))).
Proof.
  intros Hstep. rewrite lagged_coherence_unfold.
  unfold per_frequency_values. cbn [fst snd].
  rewrite arange_single by exact Hstep. cbn [bind estimate_each].
  destruct (_lagged_coherence_1freq sig f fs n_cycles) as [v|e];
    [|reflexivity].
  cbn [bind fst snd]. rewrite np_mean_single.
  unfold notices. cbn [existsb]. now rewrite orb_false_r.
Qed.

(** X16.  For a range [[f, f]] of one integer frequency and an integer
    step [f_step > 0], the invocation with [return_spectrum=False]
    returns what the single-frequency estimator returns for [f] (and
    raises when it raises), printing the notice when that value is [nan]
    and [verbose] is set. *)
Theorem single_integer_frequency_range (sig : list R) (f f_step : Z)
  (fs n_cycles : R) (verbose : bool) (out : stdout) :
  (0 < f_step)%Z ->
  lagged_coherence sig (IZR f, IZR f) fs n_cycles (IZR f_step)
                   false verbose out
  = (v <- _lagged_coherence_1freq sig (IZR f) fs n_cycles ;;
     Ok (MeanValue v,
         out ++ (if isnan v && verbose then [lc_warning] else []))).
Proof.
  intros Hstep. apply single_frequency_exact. apply IZR_lt. lia.
Qed.

Lemma single_integer_frequency_range_witness :
  lagged_coherence [1; 1] (IZR 1, IZR 1) 1 1 (IZR 1) false true []
  = (v <- _lagged_coherence_1freq [1; 1] (IZR 1) 1 1 ;;
     Ok (MeanValue v, [] ++ (if isnan v && true then [lc_warning] else []))).
Proof.
  apply (single_integer_frequency_range [1; 1] 1 1 1 1 true []). lia.
Defined.
